(** * ChickNorrisTV: tile placement search (reply.py)

    A shallow embedding of the search-and-scoring engine of [reply.py]:
    the tile catalog, the placement grid, the breadth-first path finder,
    the score evaluator and the time-bounded backtracking search.

    Python integers are [Z]; the numpy array of two-character strings is a
    list of rows of [string]; the dictionaries iterated by the code are
    association lists in insertion order; dictionaries and sets that are only
    looked up are [gmap]/[gset].  Arrays live in a store and are named by
    references, so that [self.grid] and [self.best_solution] can be told
    apart from their contents.  Wall-clock time is an oracle giving the
    successive readings of [time.time()].  A ghost field keeps every value
    assigned to the inventory, so that "at all times" can be stated. *)

From Stdlib Require Import ZArith QArith Lia Lqa.
From stdpp Require Import base option list gmap strings pretty.

Local Open Scope Z_scope.

(** ** Exceptions and results *)

Inductive exn : Type :=
  | IndexError   (* numpy index out of bounds *)
  | KeyError     (* dict lookup of a missing key *)
  | ValueError   (* negative array dimension *)
  | OutOfFuel.   (* the model's recursion bound was hit; shown unreachable *)

(** Result of code that reads the solver but does not mutate it. *)
Inductive result (A : Type) : Type :=
  | Ok (a : A)
  | Err (e : exn).
Arguments Ok {A} a.
Arguments Err {A} e.

(** ** Scores: Python ints and [float('-inf')] *)

Inductive score : Type :=
  | NegInf
  | Fin (z : Z).

(** [a > b] on scores. *)
Definition score_gt (a b : score) : bool :=
  match a, b with
  | NegInf, _ => false
  | Fin _, NegInf => true
  | Fin x, Fin y => bool_decide (y < x)
  end.

(** ** Dictionaries iterated in insertion order *)

Section dict.
Context {V : Type}.

Fixpoint dict_get (k : string) (d : list (string * V)) : option V :=
  match d with
  | [] => None
  | (k', v) :: d' => if decide (k = k') then Some v else dict_get k d'
  end.

(** [d[k] = v]: an existing key keeps its position, a new one goes last. *)
Fixpoint dict_set (k : string) (v : V) (d : list (string * V)) : list (string * V) :=
  match d with
  | [] => [(k, v)]
  | (k', v') :: d' =>
      if decide (k = k') then (k, v) :: d' else (k', v') :: dict_set k v d'
  end.

Definition dict_keys (d : list (string * V)) : list string := d.*1.
End dict.

(** ** The static catalog *)

Abbreviation coord := (Z * Z)%type (only parsing).

Definition TILE_DIRECTIONS : list (string * list coord) :=
  [ ("3",  [(0, 1); (0, -1)]);
    ("5",  [(1, 1); (-1, -1)]);
    ("6",  [(1, -1); (-1, 1)]);
    ("7",  [(0, 1); (0, -1); (1, -1); (-1, 1); (1, 1); (-1, -1)]);
    ("9",  [(-1, 1); (1, -1)]);
    ("96", [(1, -1); (-1, 1); (-1, 1); (1, -1)]);
    ("A",  [(-1, -1); (1, 1)]);
    ("A5", [(-1, -1); (1, 1); (1, 1); (-1, -1)]);
    ("B",  [(0, 1); (0, -1); (-1, -1); (1, 1); (-1, 1); (1, -1)]);
    ("C",  [(1, 0); (-1, 0)]);
    ("C3", [(0, 1); (0, -1); (1, 0); (-1, 0)]);
    ("D",  [(1, 0); (-1, 0); (-1, 1); (1, -1); (1, 1); (-1, -1)]);
    ("E",  [(-1, -1); (1, 1); (1, -1); (-1, 1); (1, 0); (-1, 0)]);
    ("F",  [(0, 1); (0, -1); (1, -1); (-1, 1); (-1, -1); (1, 1);
            (1, 0); (-1, 0); (-1, 1); (1, -1); (1, 1); (-1, -1)]) ]%string.

(** ** numpy arrays of dtype U2 *)

Abbreviation ndarray := (list (list string)) (only parsing).

Definition NUL : Ascii.ascii := Ascii.zero.

(** Reading a fixed-width unicode cell drops its trailing NUL padding. *)
Fixpoint rstrip_nul (s : string) : string :=
  match s with
  | EmptyString => EmptyString
  | String c s' =>
      match rstrip_nul s' with
      | EmptyString => if decide (c = NUL) then EmptyString else String c EmptyString
      | r => String c r
      end
  end.

(** What a cell of dtype U2 holds after [s] was assigned to it. *)
Definition U2 (s : string) : string := rstrip_nul (String.substring 0 2 s).

(** [np.zeros((h, w), dtype='U2')]: every cell is the empty string. *)
Definition zeros (h w : nat) : ndarray := replicate h (replicate w EmptyString).

(** Index normalisation along an axis of length [n]: [-n ≤ i < 0] counts from
    the end, anything outside [-n ≤ i < n] is an IndexError. *)
Definition index (n : nat) (i : Z) : option nat :=
  if bool_decide (0 ≤ i < Z.of_nat n) then Some (Z.to_nat i)
  else if bool_decide (- Z.of_nat n ≤ i < 0) then Some (Z.to_nat (i + Z.of_nat n))
  else None.

Definition getitem (a : ndarray) (x y : Z) : option string :=
  i ← index (length a) x;
  row ← a !! i;
  j ← index (length row) y;
  row !! j.

Definition setitem (a : ndarray) (x y : Z) (v : string) : option ndarray :=
  i ← index (length a) x;
  row ← a !! i;
  j ← index (length row) y;
  Some (<[i := <[j := U2 v]> row]> a).

(** ** The solver object *)

Abbreviation inventory := (list (string * (Z * Z))) (only parsing).

Record ChickNorrisTV : Type := mkTV {
  width : Z;
  height : Z;
  golden_points : list coord;       (* the set, in its iteration order *)
  silver_points : gmap coord Z;
  tiles : inventory;                (* tile_id -> (cost, count) *)
  grid : nat;                       (* reference into [store] *)
  best_score : score;
  best_solution : option nat;       (* None, or a reference into [store] *)
  start_time : Q;
  time_limit : Q;
  (* the world around the object *)
  store : list ndarray;             (* the arrays allocated so far *)
  clock : nat → Q;                  (* k-th reading of time.time() *)
  ticks : nat;                      (* readings taken so far *)
  history : list inventory          (* ghost: the values assigned to self.tiles, newest first *)
}.

(** Contents of [self.grid]. *)
Definition the_grid (st : ChickNorrisTV) : ndarray :=
  default [] (store st !! grid st).

Definition set_store (s : list ndarray) (st : ChickNorrisTV) : ChickNorrisTV :=
  mkTV (width st) (height st) (golden_points st) (silver_points st) (tiles st)
       (grid st) (best_score st) (best_solution st) (start_time st) (time_limit st)
       s (clock st) (ticks st) (history st).

(** Assigning [self.tiles[..] = ..]; the ghost history records the new value. *)
Definition set_tiles (t : inventory) (st : ChickNorrisTV) : ChickNorrisTV :=
  mkTV (width st) (height st) (golden_points st) (silver_points st) t
       (grid st) (best_score st) (best_solution st) (start_time st) (time_limit st)
       (store st) (clock st) (ticks st) (t :: history st).

Definition set_best (sc : score) (sol : option nat) (st : ChickNorrisTV) : ChickNorrisTV :=
  mkTV (width st) (height st) (golden_points st) (silver_points st) (tiles st)
       (grid st) sc sol (start_time st) (time_limit st)
       (store st) (clock st) (ticks st) (history st).

Definition set_ticks (n : nat) (st : ChickNorrisTV) : ChickNorrisTV :=
  mkTV (width st) (height st) (golden_points st) (silver_points st) (tiles st)
       (grid st) (best_score st) (best_solution st) (start_time st) (time_limit st)
       (store st) (clock st) n (history st).

(** Writing through the reference [self.grid]. *)
Definition write_grid (a : ndarray) (st : ChickNorrisTV) : ChickNorrisTV :=
  set_store (<[grid st := a]> (store st)) st.

(** Outcome of code that may mutate the solver: the object survives an
    exception in whatever state the exception left it. *)
Inductive outcome (A : Type) : Type :=
  | Return (a : A) (st : ChickNorrisTV)
  | Raise (e : exn) (st : ChickNorrisTV).
Arguments Return {A} a st.
Arguments Raise {A} e st.

Definition M (A : Type) : Type := ChickNorrisTV → outcome A.

Definition ret {A} (a : A) : M A := λ st, Return a st.
Definition raise {A} (e : exn) : M A := λ st, Raise e st.
Definition bind {A B} (m : M A) (k : A → M B) : M B :=
  λ st, match m st with
        | Return a st' => k a st'
        | Raise e st' => Raise e st'
        end.
Definition get : M ChickNorrisTV := λ st, Return st st.
Definition modify (f : ChickNorrisTV → ChickNorrisTV) : M unit := λ st, Return tt (f st).
Definition lift {A} (r : result A) : M A :=
  match r with Ok a => ret a | Err e => raise e end.

Global Instance M_ret : MRet M := @ret.
Global Instance M_bind : MBind M := λ A B k m, bind m k.

(** The final state of an outcome. *)
Definition final {A} (o : outcome A) : ChickNorrisTV :=
  match o with Return _ st => st | Raise _ st => st end.

(** ** Construction *)

(** [{tuple(p[:2]): p[2] for p in silver_points}]: a later entry overrides. *)
Definition silver_dict (l : list (Z * Z * Z)) : gmap coord Z :=
  foldl (λ m p, <[p.1 := p.2]> m) ∅ l.

(** [set(map(tuple, golden_points))]; duplicates collapse.  The iteration
    order of a Python set is unspecified: the properties below are stated for
    every order. *)
Definition golden_set (l : list coord) : list coord := remove_dups l.

(** [__init__]; [clk] is the clock oracle of the run. *)
Definition init (clk : nat → Q) (w h : Z) (golden : list coord)
    (silver : list (Z * Z * Z)) (tls : inventory) : result ChickNorrisTV :=
  if bool_decide (h < 0 ∨ w < 0) then Err ValueError
  else Ok (mkTV w h (golden_set golden) (silver_dict silver) tls
                0%nat NegInf None (clk 0%nat) 300%Q
                [zeros (Z.to_nat h) (Z.to_nat w)] clk 1%nat []).

Definition is_valid (st : ChickNorrisTV) (x y : Z) : bool :=
  bool_decide (0 ≤ x < height st ∧ 0 ≤ y < width st).

(** ** Placing and removing tiles *)

Definition place_tile (x y : Z) (tile_id : string) : M bool := λ st,
  if bool_decide ((x, y) ∈ golden_points st) || bool_decide (is_Some (silver_points st !! (x, y)))
  then Return false st
  else match getitem (the_grid st) x y with
       | None => Raise IndexError st
       | Some cell =>
           if bool_decide (cell ≠ EmptyString) then Return false st
           else match dict_get tile_id (tiles st) with
                | None => Raise KeyError st
                | Some (cost, count) =>
                    if bool_decide (count ≤ 0) then Return false st
                    else match setitem (the_grid st) x y tile_id with
                         | None => Raise IndexError st
                         | Some a =>
                             Return true
                               (set_tiles (dict_set tile_id (cost, count - 1) (tiles st))
                                  (write_grid a st))
                         end
                end
       end.

Definition remove_tile (x y : Z) : M unit := λ st,
  match getitem (the_grid st) x y with
  | None => Raise IndexError st
  | Some tile_id =>
      if bool_decide (tile_id ≠ EmptyString) then
        match setitem (the_grid st) x y EmptyString with
        | None => Raise IndexError st
        | Some a =>
            let st1 := write_grid a st in
            match dict_get tile_id (tiles st1) with
            | None => Raise KeyError st1
            | Some (cost, count) =>
                Return tt (set_tiles (dict_set tile_id (cost, count + 1) (tiles st1)) st1)
            end
        end
      else Return tt st
  end.

(** ** Path finding *)

Instance result_ret : MRet result := @Ok.
Instance result_bind : MBind result := λ A B k r,
  match r with Ok a => k a | Err e => Err e end.

Abbreviation queue_entry := ((Z * Z) * list (Z * Z))%type (only parsing).

(** The [for dx, dy in TILE_DIRECTIONS[tile_id]] loop of [bfs]. *)
Definition enqueue (st : ChickNorrisTV) (x y : Z) (path : list coord)
    (visited : gset coord) (dirs : list coord) (queue : list queue_entry)
    : list queue_entry :=
  foldl (λ q d,
           let nx := x + d.1 in
           let ny := y + d.2 in
           if is_valid st nx ny && bool_decide ((nx, ny) ∉ visited)
           then q ++ [((nx, ny), path ++ [(x, y)])]
           else q)
        queue dirs.

(** The [while queue] loop of [bfs]; one unit of fuel per iteration. *)
Fixpoint bfs_loop (fuel : nat) (st : ChickNorrisTV) (end_ : coord)
    (queue : list queue_entry) (visited : gset coord)
    : result (option (list coord)) :=
  match fuel with
  | O => Err OutOfFuel
  | S fuel' =>
      match queue with
      | [] => Ok None
      | ((x, y), path) :: queue' =>
          if bool_decide ((x, y) = end_) then Ok (Some path)
          else if bool_decide ((x, y) ∈ visited) then bfs_loop fuel' st end_ queue' visited
          else
            let visited' := visited ∪ {[ (x, y) ]} in
            match getitem (the_grid st) x y with
            | None => Err IndexError
            | Some tile_id =>
                if bool_decide (tile_id ≠ EmptyString) then
                  match dict_get tile_id TILE_DIRECTIONS with
                  | None => Err KeyError
                  | Some dirs =>
                      bfs_loop fuel' st end_
                        (enqueue st x y path visited' dirs queue') visited'
                  end
                else bfs_loop fuel' st end_ queue' visited'
            end
      end
  end.

(** Iterations granted to the loop: more than it can ever use (see
    [bfs_loop_enough_fuel]). *)
Definition bfs_fuel (st : ChickNorrisTV) : nat :=
  S (S (13 * S (Z.to_nat (height st) * Z.to_nat (width st)))).

Definition bfs (st : ChickNorrisTV) (start end_ : coord) : result (option (list coord)) :=
  bfs_loop (bfs_fuel st) st end_ [(start, [])] ∅.

(** ** Scoring *)

(** [itertools.combinations(l, 2)]. *)
Fixpoint combinations2 {A} (l : list A) : list (A * A) :=
  match l with
  | [] => []
  | a :: l' => map (pair a) l' ++ combinations2 l'
  end.

(** [sum(tile_costs.values())]. *)
Definition sum_values (m : gmap string Z) : Z :=
  map_fold (λ _ v acc, acc + v) 0 m.

(** [tile_costs[tile_id] += c] on a [defaultdict(int)]. *)
Definition add_cost (tile_id : string) (c : Z) (m : gmap string Z) : gmap string Z :=
  <[tile_id := default 0 (m !! tile_id) + c]> m.

(** [path_score += self.silver_points[(x, y)]] when [(x, y)] is a silver point. *)
Definition add_bonus (st : ChickNorrisTV) (p : coord) (path_score : Z) : Z :=
  match silver_points st !! p with
  | Some b => path_score + b
  | None => path_score
  end.

(** The locals of [calculate_score] that the inner loop updates. *)
Record ledger : Type := mkLedger {
  path_score : Z;
  tile_costs : gmap string Z;
  visited_tiles : gset coord
}.

(** Body of [for x, y in path]. *)
Definition score_cell (st : ChickNorrisTV) (l : ledger) (p : coord) : result ledger :=
  match getitem (the_grid st) p.1 p.2 with
  | None => Err IndexError
  | Some tile_id =>
      if bool_decide (tile_id ≠ EmptyString) then
        if bool_decide (p ∈ visited_tiles l) then
          match dict_get tile_id (tiles st) with
          | None => Err KeyError
          | Some (cost, _) =>
              Ok (mkLedger (add_bonus st p (path_score l))
                           (add_cost tile_id cost (tile_costs l))
                           (visited_tiles l))
          end
        else
          match dict_get tile_id (tiles st) with
          | None => Err KeyError
          | Some (cost, _) =>
              Ok (mkLedger (add_bonus st p (path_score l))
                           (add_cost tile_id cost (tile_costs l))
                           (visited_tiles l ∪ {[ p ]}))
          end
      else Ok l
  end.

Fixpoint score_path (st : ChickNorrisTV) (path : list coord) (l : ledger) : result ledger :=
  match path with
  | [] => Ok l
  | p :: path' => l' ← score_cell st l p; score_path st path' l'
  end.

(** The [for start, end in ...] loop of [calculate_score], from the locals
    [total_score], [tile_costs], [visited_tiles] on. *)
Fixpoint score_pairs (st : ChickNorrisTV) (pairs : list (coord * coord))
    (total_score : Z) (costs : gmap string Z) (seen : gset coord) : result score :=
  match pairs with
  | [] => Ok (Fin (total_score - sum_values costs))
  | (start, end_) :: rest =>
      path ← bfs st start end_;
      match path with
      | None | Some [] => Ok NegInf
      | Some path =>
          l ← score_path st path (mkLedger 0 costs seen);
          score_pairs st rest (total_score + path_score l) (tile_costs l) (visited_tiles l)
      end
  end.

Definition calculate_score (st : ChickNorrisTV) : result score :=
  score_pairs st (combinations2 (golden_points st)) 0 ∅ ∅.

(** ** The search *)

(** [time.time()]. *)
Definition time_time : M Q := λ st,
  Return (clock st (ticks st)) (set_ticks (S (ticks st)) st).

(** [a > b] on clock readings. *)
Definition Qgtb (a b : Q) : bool := negb (Qle_bool a b).

(** [self.grid.copy()]: a new array with the contents of the grid. *)
Definition grid_copy : M nat := λ st,
  Return (length (store st)) (set_store (store st ++ [the_grid st]) st).

(** The [x == self.height] branch of [backtrack]. *)
Definition evaluate : M unit :=
  st ← get;
  sc ← lift (calculate_score st);
  if score_gt sc (best_score st) then
    r ← grid_copy;
    modify (set_best sc (Some r))
  else ret tt.

Fixpoint for_each {A} (l : list A) (body : A → M unit) : M unit :=
  match l with
  | [] => ret tt
  | a :: l' => body a;; for_each l' body
  end.

(** Body of [for tile_id in self.tiles]; [next] is the call
    [backtrack(x, y + 1)]. *)
Definition try_tile (next : M unit) (x y : Z) (tile_id : string) : M unit :=
  placed ← place_tile x y tile_id;
  if placed : bool then
    next;;
    remove_tile x y
  else ret tt.

Fixpoint backtrack (fuel : nat) (x y : Z) : M unit :=
  match fuel with
  | O => raise OutOfFuel
  | S fuel' =>
      now ← time_time;
      st ← get;
      if Qgtb (now - start_time st)%Q (time_limit st) then ret tt
      else if bool_decide (x = height st) then evaluate
      else if bool_decide (y = width st) then backtrack fuel' (x + 1) 0
      else
        backtrack fuel' x (y + 1);;
        st ← get;
        for_each (dict_keys (tiles st)) (try_tile (backtrack fuel' x (y + 1)) x y)
  end.

(** Recursion depth granted to [backtrack]: one call per cell, one per row
    end, one for the final evaluation (see [backtrack_enough_fuel]). *)
Definition search_fuel (st : ChickNorrisTV) : nat :=
  S (Z.to_nat (height st) * S (Z.to_nat (width st))).

Definition solve : M (option nat * score) :=
  st ← get;
  backtrack (search_fuel st) 0 0;;
  st ← get;
  ret (best_solution st, best_score st).

(** * Auxiliary definitions for the properties *)

(** The position of the array that [a[x, y]] names, when it names one. *)
Definition locate (a : ndarray) (x y : Z) : option (nat * nat) :=
  i ← index (length a) x;
  row ← a !! i;
  j ← index (length row) y;
  Some (i, j).

(** An identifier that a U2 cell stores unchanged and that reads back as a
    tile: not empty, at most two characters, no trailing NUL.  Every
    identifier of the catalog is one ([catalog_ids_fit]). *)
Definition fits_cell (tile_id : string) : Prop :=
  U2 tile_id = tile_id ∧ tile_id ≠ EmptyString.

(** [(x, y)] names a cell of the grid and that cell holds a tile. *)
Definition occupied (st : ChickNorrisTV) (x y : Z) : Prop :=
  ∃ c, getitem (the_grid st) x y = Some c ∧ c ≠ EmptyString.

(** [(x, y)] names a cell of the grid and that cell is empty. *)
Definition vacant (st : ChickNorrisTV) (x y : Z) : Prop :=
  getitem (the_grid st) x y = Some EmptyString.

(** [(x, y)] names a cell of the grid. *)
Definition in_grid (st : ChickNorrisTV) (x y : Z) : Prop :=
  is_Some (getitem (the_grid st) x y).

(** The inventory has an entry for [tile_id] and no unit left of it. *)
Definition exhausted (st : ChickNorrisTV) (tile_id : string) : Prop :=
  ∃ cost count, dict_get tile_id (tiles st) = Some (cost, count) ∧ count ≤ 0.

(** *** Example solvers *)

Definition still_clock : nat → Q := λ _, 0%Q.

(** Width 3, height 1, golden points (0,0) and (0,2), one tile type [C],
    cost 1, count 5; freshly constructed. *)
Definition corridor : ChickNorrisTV :=
  mkTV 3 1 [(0, 0); (0, 2)] ∅ [("C"%string, (1, 5))] 0%nat NegInf None
       0%Q 300%Q [zeros 1 3] still_clock 1%nat [].

(** *** Ways through the grid *)

(** [walk st s path c]: starting at [s] and ending at [c], [path] lists in
    order the cells that are left on the way; every cell left holds a tile
    and is left along one of the directions of that tile, to a cell inside
    the grid. *)
Inductive walk (st : ChickNorrisTV) (s : Z * Z) : list (Z * Z) → Z * Z → Prop :=
  | walk_start : walk st s [] s
  | walk_step path p tile_id dirs d :
      walk st s path p →
      getitem (the_grid st) p.1 p.2 = Some tile_id →
      tile_id ≠ EmptyString →
      dict_get tile_id TILE_DIRECTIONS = Some dirs →
      d ∈ dirs →
      is_valid st (p.1 + d.1) (p.2 + d.2) = true →
      walk st s (path ++ [p]) (p.1 + d.1, p.2 + d.2).

(** Every cell inside the grid, row by row. *)
Definition all_cells (st : ChickNorrisTV) : list (Z * Z) :=
  x ← seqZ 0 (height st); y ← seqZ 0 (width st); [(x, y)].

(** How many of the cells [cells] the search has not visited yet. *)
Definition unseen (cells : list (Z * Z)) (visited : gset (Z * Z)) : nat :=
  length (filter (λ c, c ∉ visited) cells).

(** *** Scoring, as sums over paths *)

Definition Zsum (l : list Z) : Z := foldr Z.add 0 l.

(** The bonus of [p] if it is a silver point, else nothing. *)
Definition silver_bonus (st : ChickNorrisTV) (p : Z * Z) : Z :=
  default 0 (silver_points st !! p).

(** The unit cost of the tile at [p], nothing for an empty cell. *)
Definition cost_at (st : ChickNorrisTV) (p : Z * Z) : Z :=
  match getitem (the_grid st) p.1 p.2 with
  | Some tile_id =>
      if bool_decide (tile_id ≠ EmptyString)
      then match dict_get tile_id (tiles st) with Some (cost, _) => cost | None => 0 end
      else 0
  | None => 0
  end.

(** What the scoring loop adds to [path_score] at [p]: the bonus of a silver
    point, under the test that the cell holds a tile. *)
Definition bonus_at (st : ChickNorrisTV) (p : Z * Z) : Z :=
  match getitem (the_grid st) p.1 p.2 with
  | Some tile_id => if bool_decide (tile_id ≠ EmptyString) then silver_bonus st p else 0
  | None => 0
  end.

(** One summand per occurrence of a coordinate. *)
Definition path_bonus (st : ChickNorrisTV) (path : list (Z * Z)) : Z :=
  Zsum (silver_bonus st <$> path).
Definition path_cost (st : ChickNorrisTV) (path : list (Z * Z)) : Z :=
  Zsum (cost_at st <$> path).

(** [paths] are the non-empty paths that [bfs] computes for [pairs]. *)
Definition computed_paths (st : ChickNorrisTV) (pairs : list ((Z * Z) * (Z * Z)))
    (paths : list (list (Z * Z))) : Prop :=
  Forall2 (λ pr path, bfs st pr.1 pr.2 = Ok (Some path) ∧ path ≠ []) pairs paths.

(** *** [calculate_score] without the [visited_tiles] set

    The variant that the specification says may replace the original: the
    set and the branch on it are gone, one update of cost and bonus is left. *)

Definition score_cell_plain (st : ChickNorrisTV) (acc : Z * gmap string Z) (p : Z * Z)
    : result (Z * gmap string Z) :=
  match getitem (the_grid st) p.1 p.2 with
  | None => Err IndexError
  | Some tile_id =>
      if bool_decide (tile_id ≠ EmptyString) then
        match dict_get tile_id (tiles st) with
        | None => Err KeyError
        | Some (cost, _) => Ok (add_bonus st p acc.1, add_cost tile_id cost acc.2)
        end
      else Ok acc
  end.

Fixpoint score_path_plain (st : ChickNorrisTV) (path : list (Z * Z))
    (acc : Z * gmap string Z) : result (Z * gmap string Z) :=
  match path with
  | [] => Ok acc
  | p :: path' => acc' ← score_cell_plain st acc p; score_path_plain st path' acc'
  end.

Fixpoint score_pairs_plain (st : ChickNorrisTV) (pairs : list ((Z * Z) * (Z * Z)))
    (total_score : Z) (costs : gmap string Z) : result score :=
  match pairs with
  | [] => Ok (Fin (total_score - sum_values costs))
  | (start, end_) :: rest =>
      path ← bfs st start end_;
      match path with
      | None | Some [] => Ok NegInf
      | Some path =>
          acc ← score_path_plain st path (0, costs);
          score_pairs_plain st rest (total_score + acc.1) acc.2
      end
  end.

Definition calculate_score_plain (st : ChickNorrisTV) : result score :=
  score_pairs_plain st (combinations2 (golden_points st)) 0 ∅.

(** A grid where golden point (0,0) and silver point (0,1) hold tiles [3]:
    not a state the search produces, but one the path finder and the scorer
    accept, and the smallest one with a connecting path. *)
Definition paved : ChickNorrisTV :=
  mkTV 3 1 [(0, 0); (0, 2)] {[ (0, 1) := 10 ]} [("3"%string, (2, 3))] 0%nat NegInf None
       0%Q 300%Q [[["3"; "3"; ""]%string]] still_clock 1%nat [].

(** The locals that both versions of the scoring loop have. *)
Definition forget (l : ledger) : Z * gmap string Z := (path_score l, tile_costs l).

Definition result_map {A B} (f : A → B) (r : result A) : result B :=
  match r with Ok a => Ok (f a) | Err e => Err e end.

(** *** Relations between the states of a run *)

(** Whatever [m] does and however it ends, the solver it leaves is
    [R]-related to the one it started from. *)
Definition stable (R : relation ChickNorrisTV) {A} (m : M A) : Prop :=
  ∀ st, R st (final (m st)).

(** No tile type has a negative remaining count. *)
Definition counts_nonneg (t : list (string * (Z * Z))) : Prop :=
  Forall (λ e, 0 ≤ e.2.2) t.

(** Now and at every earlier assignment to [self.tiles], no count was
    negative. *)
Definition never_negative (st : ChickNorrisTV) : Prop :=
  counts_nonneg (tiles st) ∧ Forall counts_nonneg (history st).

(** Every identifier of the inventory can be held by a grid cell. *)
Definition ids_fit (st : ChickNorrisTV) : Prop :=
  Forall fits_cell (dict_keys (tiles st)).

(** Same grid contents, same inventory, same grid reference. *)
Definition same_board (st st' : ChickNorrisTV) : Prop :=
  the_grid st' = the_grid st ∧ tiles st' = tiles st ∧ grid st' = grid st.

(** The deadline test of [backtrack] succeeds on the [k]-th clock reading. *)
Definition expired (st : ChickNorrisTV) (k : nat) : Prop :=
  Qgtb (clock st k - start_time st)%Q (time_limit st) = true.

(** A clock that never runs backwards. *)
Definition monotone (clk : nat → Q) : Prop :=
  ∀ i j, (i ≤ j)%nat → (clk i <= clk j)%Q.

(** [st'] is a state of the run that [st] belongs to, at the same time or
    later: the deadline parameters are those of [st]. *)
Definition same_run (st st' : ChickNorrisTV) : Prop :=
  clock st' = clock st ∧ start_time st' = start_time st ∧
  time_limit st' = time_limit st ∧ (ticks st ≤ ticks st')%nat.

(** How a solver can differ from an earlier one of the same search. *)
Record evolves (st st' : ChickNorrisTV) : Prop := mkEvolves {
  ev_width : width st' = width st;
  ev_height : height st' = height st;
  ev_golden : golden_points st' = golden_points st;
  ev_silver : silver_points st' = silver_points st;
  ev_grid : grid st' = grid st;
  ev_run : same_run st st';
  ev_keys : dict_keys (tiles st') = dict_keys (tiles st);
  ev_store_length : (length (store st) ≤ length (store st'))%nat;
  (* arrays other than the live grid keep their contents *)
  ev_store : ∀ r a, r ≠ grid st → store st !! r = Some a → store st' !! r = Some a;
  (* the best is kept, or replaced by a fresh array with a higher score *)
  ev_best :
    (best_solution st' = best_solution st ∧ best_score st' = best_score st) ∨
    (score_gt (best_score st') (best_score st) = true ∧
     ∃ r, best_solution st' = Some r ∧
          (length (store st) ≤ r < length (store st'))%nat)
}.

(** The relation "if [I] held before, it holds after". *)
Definition keeps (I : ChickNorrisTV → Prop) : relation ChickNorrisTV :=
  λ st st', I st → I st'.

(** The outcome is not the model's own "out of iterations". *)
Definition fuel_ok {A} (o : outcome A) : Prop := ∀ st, o ≠ Raise OutOfFuel st.

(** Calls of [backtrack] still to come on the way from [(x, y)] to the
    evaluation of the grid. *)
Definition calls_left (st : ChickNorrisTV) (x y : Z) : Z :=
  (height st - x) * (width st + 1) - y.

(** A clock that jumps past the budget right after construction. *)
Definition late_clock : nat → Q := λ k, if (k =? 0)%nat then 0%Q else 301%Q.

(** A clock that passes the budget at its sixth reading, in mid-search. *)
Definition mid_clock : nat → Q := λ k, if (k <? 5)%nat then 0%Q else 301%Q.

(** The corridor, constructed under [late_clock]. *)
Definition late_corridor : ChickNorrisTV :=
  mkTV 3 1 [(0, 0); (0, 2)] ∅ [("C"%string, (1, 5))] 0%nat NegInf None
       0%Q 300%Q [zeros 1 3] late_clock 1%nat [].

(** A 1 x 2 grid with one golden point and one tile type, constructed under
    [mid_clock]. *)
Definition short_run : ChickNorrisTV :=
  mkTV 2 1 [(0, 0)] ∅ [("C"%string, (1, 5))] 0%nat NegInf None
       0%Q 300%Q [zeros 1 2] mid_clock 1%nat [].

(** *** Identifiers and the catalog *)

(** Every identifier of the inventory is a key of [TILE_DIRECTIONS]. *)
Definition catalog_inventory (st : ChickNorrisTV) : Prop :=
  Forall (λ k, k ∈ dict_keys TILE_DIRECTIONS) (dict_keys (tiles st)).

(** Every tile on the grid is of a type of the inventory. *)
Definition known_cells (st : ChickNorrisTV) : Prop :=
  ∀ x y t, getitem (the_grid st) x y = Some t → t ≠ EmptyString →
           t ∈ dict_keys (tiles st).

(** A solver constructed with a tile type [X] that the catalog does not
    have: width 3, height 1, no golden and no silver point. *)
Definition rogue : ChickNorrisTV :=
  mkTV 3 1 [] ∅ [("X"%string, (1, 1))] 0%nat NegInf None
       0%Q 300%Q [zeros 1 3] still_clock 1%nat [].

(** *** Golden points stay empty *)

(** Every golden point is a cell of the grid, named by non-negative
    coordinates, and holds no tile. *)
Definition golden_clear (st : ChickNorrisTV) : Prop :=
  ∀ p, p ∈ golden_points st → 0 ≤ p.1 ∧ 0 ≤ p.2 ∧ vacant st p.1 p.2.

(** Two or more golden points, all of them clear. *)
Definition disconnected (st : ChickNorrisTV) : Prop :=
  (2 ≤ length (golden_points st))%nat ∧ golden_clear st.

(** From a disconnected solver on, the search stays disconnected and the
    recorded best does not change. *)
Definition unrewarded (st st' : ChickNorrisTV) : Prop :=
  disconnected st →
  disconnected st' ∧ best_solution st' = best_solution st ∧ best_score st' = best_score st.

(** *** Well-formed solvers *)

(** The grid is an allocated array of [height] rows of [width] cells. *)
Definition grid_shape_ok (st : ChickNorrisTV) : Prop :=
  (grid st < length (store st))%nat ∧
  length (the_grid st) = Z.to_nat (height st) ∧
  Forall (λ row, length row = Z.to_nat (width st)) (the_grid st).

(** What the constructor establishes for an instance whose golden points are
    cells of the grid and whose identifiers fit a cell, and what the search
    keeps whenever it is between two placements. *)
Definition well_formed (st : ChickNorrisTV) : Prop :=
  grid_shape_ok st ∧ ids_fit st ∧ known_cells st ∧ golden_clear st.

(** * Definitions for the further properties *)

(** [step st p q]: a path may go from [p] to [q], that is, [p] holds a tile
    and [q] is [p] moved by one of the directions of that tile, inside the
    grid. *)
Definition step (st : ChickNorrisTV) (p q : Z * Z) : Prop :=
  ∃ tile_id dirs d,
    getitem (the_grid st) p.1 p.2 = Some tile_id ∧ tile_id ≠ EmptyString ∧
    dict_get tile_id TILE_DIRECTIONS = Some dirs ∧ d ∈ dirs ∧
    is_valid st (p.1 + d.1) (p.2 + d.2) = true ∧
    q = (p.1 + d.1, p.2 + d.2).

(** The coordinates waiting in the queue of [bfs]. *)
Definition waiting (queue : list ((Z * Z) * list (Z * Z))) : list (Z * Z) :=
  queue.*1.

(** Every tile on the grid is of a type of the catalog. *)
Definition tiles_in_catalog (st : ChickNorrisTV) : Prop :=
  ∀ x y t, getitem (the_grid st) x y = Some t → t ≠ EmptyString →
           is_Some (dict_get t TILE_DIRECTIONS).

(** The queue of [bfs] holds its entries by path length: no entry has a
    shorter path than an entry before it, nor one longer by more than a
    step. *)
Fixpoint layered (queue : list ((Z * Z) * list (Z * Z))) : Prop :=
  match queue with
  | [] => True
  | a :: rest =>
      Forall (λ b, (length a.2 ≤ length b.2 ≤ length a.2 + 1)%nat) rest ∧ layered rest
  end.

(** Two index pairs name the same cell of the array (a negative index counts
    from the end, so [(-1, 0)] and [(length a - 1, 0)] are the same cell). *)
Definition same_cell (a : ndarray) (p q : Z * Z) : Prop :=
  locate a p.1 p.2 = locate a q.1 q.2.

(** *** The whole run with fewer than two golden points *)

(** The clock never runs backwards and a reading already taken was past the
    deadline. *)
Definition overdue (st : ChickNorrisTV) : Prop :=
  monotone (clock st) ∧ ∃ k, (k ≤ ticks st)%nat ∧ expired st k.

(** From an overdue solver on, the search stays overdue and the recorded
    best does not change. *)
Definition frozen (st st' : ChickNorrisTV) : Prop :=
  overdue st →
  overdue st' ∧ best_solution st' = best_solution st ∧ best_score st' = best_score st.

(** There is no pair of golden points and the score 0 has been recorded. *)
Definition settled (st : ChickNorrisTV) : Prop :=
  (length (golden_points st) < 2)%nat ∧ best_score st = Fin 0.

(** From a settled solver on, the search stays settled and keeps the
    recorded solution. *)
Definition steady (st st' : ChickNorrisTV) : Prop :=
  settled st → settled st' ∧ best_solution st' = best_solution st.

(** The clock reading taken by the call of [backtrack] that evaluates the
    first complete grid, counted from a call at [(x, y)] in [st]. *)
Definition first_evaluation (st : ChickNorrisTV) (x y : Z) : nat :=
  (ticks st + Z.to_nat (calls_left st x y))%nat.

(** *** Writing the result *)

(** What [write_output] can raise: [solution.shape] on [None], or an
    exception of the array. *)
Inductive write_exn : Type :=
  | AttributeError
  | ArrayError (e : exn).

Definition newline : string := String (Ascii.ascii_of_nat 10) EmptyString.

(** The line written for a tile [t] in row [x], column [y]: the column comes
    first. *)
Definition tile_line (t : string) (y x : nat) : string :=
  t +:+ " " +:+ pretty y +:+ " " +:+ pretty x +:+ newline.

(** The last line; Python prints [float('-inf')] as [-inf]. *)
Definition score_line (sc : score) : string :=
  "# Score: " +:+ match sc with NegInf => "-inf" | Fin z => pretty z end +:+ newline.

(** [solution.shape] *)
Definition shape (a : ndarray) : nat * nat := (length a, length (default [] (head a))).

(** The loop over [y] for row [x]; [out] is what has been written so far. *)
Fixpoint write_row (a : ndarray) (x : nat) (ys : list nat) (out : list string)
    : list string * option write_exn :=
  match ys with
  | [] => (out, None)
  | y :: ys' =>
      match getitem a (Z.of_nat x) (Z.of_nat y) with
      | None => (out, Some (ArrayError IndexError))
      | Some t =>
          write_row a x ys'
            (if bool_decide (t ≠ EmptyString) then out ++ [tile_line t y x] else out)
      end
  end.

(** The loop over [x]. *)
Fixpoint write_rows (a : ndarray) (xs : list nat) (w : nat) (out : list string)
    : list string * option write_exn :=
  match xs with
  | [] => (out, None)
  | x :: xs' =>
      match write_row a x (seq 0 w) out with
      | (out', None) => write_rows a xs' w out'
      | r => r
      end
  end.

(** [write_output(filename, solution, score)], as the strings written to the
    file, in order, and the exception raised if any.  The file is opened for
    writing, so whatever it held before is gone even when nothing is
    written. *)
Definition write_output (solution : option ndarray) (sc : score)
    : list string * option write_exn :=
  match solution with
  | None => ([], Some AttributeError)
  | Some a =>
      match write_rows a (seq 0 (shape a).1) (shape a).2 [] with
      | (out, None) => (out ++ [score_line sc], None)
      | r => r
      end
  end.

(** The tiles of a row and of an array, in reading order, as output lines. *)
Fixpoint row_lines (x y : nat) (row : list string) : list string :=
  match row with
  | [] => []
  | t :: row' =>
      (if bool_decide (t ≠ EmptyString) then [tile_line t y x] else [])
      ++ row_lines x (S y) row'
  end.

Fixpoint grid_lines (x : nat) (a : ndarray) : list string :=
  match a with
  | [] => []
  | row :: a' => row_lines x 0 row ++ grid_lines (S x) a'
  end.

(** All rows of the array have the length of the first one. *)
Definition rectangular (a : ndarray) : Prop :=
  Forall (λ row, length row = (shape a).2) a.
(** * Properties *)

(** ** Dictionaries *)

Section dict_facts.
Context {V : Type}.
Implicit Types (d : list (string * V)) (k : string) (v : V).

Lemma dict_get_set_eq d k v : dict_get k (dict_set k v d) = Some v.
Proof.
  induction d as [|[k' v'] d IH]; simpl; repeat case_decide; simpl;
    repeat case_decide; congruence.
Qed.

Lemma dict_get_set_ne d k k' v : k ≠ k' → dict_get k' (dict_set k v d) = dict_get k' d.
Proof.
  intros Hne. induction d as [|[k0 v0] d IH]; simpl; repeat case_decide; simpl;
    repeat case_decide; congruence.
Qed.

Lemma dict_set_set d k v w : dict_set k v (dict_set k w d) = dict_set k v d.
Proof.
  induction d as [|[k' v'] d IH]; simpl; repeat case_decide; simpl;
    repeat case_decide; congruence.
Qed.

Lemma dict_set_id d k v : dict_get k d = Some v → dict_set k v d = d.
Proof.
  induction d as [|[k' v'] d IH]; simpl; [done|].
  case_decide; intros; simplify_eq; [done|]. by rewrite IH.
Qed.

Lemma dict_keys_set d k v w :
  dict_get k d = Some w → dict_keys (dict_set k v d) = dict_keys d.
Proof.
  unfold dict_keys. induction d as [|[k' v'] d IH]; simpl; [done|].
  case_decide; intros; simplify_eq; csimpl; [done|]. f_equal. by apply IH.
Qed.

Lemma dict_get_is_Some d k : k ∈ dict_keys d → is_Some (dict_get k d).
Proof.
  unfold dict_keys. induction d as [|[k' v'] d IH]; simpl.
  - by intros ?%elem_of_nil.
  - intros [->|?]%elem_of_cons; case_decide; eauto. done.
Qed.

Lemma dict_get_Some_key d k v : dict_get k d = Some v → k ∈ dict_keys d.
Proof.
  unfold dict_keys. induction d as [|[k' v'] d IH]; simpl; [done|].
  case_decide; intros; simplify_eq; [left | right; auto].
Qed.
End dict_facts.

(** ** Array cells *)

Lemma index_lt n i k : index n i = Some k → (k < n)%nat.
Proof. unfold index. repeat case_bool_decide; intros; simplify_eq; lia. Qed.

Lemma index_nonneg n i : 0 ≤ i < Z.of_nat n → index n i = Some (Z.to_nat i).
Proof. intros. unfold index. by rewrite bool_decide_eq_true_2. Qed.

Lemma U2_empty : U2 EmptyString = EmptyString.
Proof. reflexivity. Qed.

Lemma getitem_locate a x y c :
  getitem a x y = Some c ↔
  ∃ i j row, locate a x y = Some (i, j) ∧ a !! i = Some row ∧ row !! j = Some c.
Proof.
  unfold getitem, locate. split.
  - intros. simplify_option_eq. eauto 10.
  - intros (i & j & row & ? & ? & ?). by simplify_option_eq.
Qed.

Lemma locate_is_Some a x y : is_Some (locate a x y) ↔ is_Some (getitem a x y).
Proof.
  unfold getitem, locate. split; intros [? ?]; simplify_option_eq.
  - match goal with H : index (length _) y = Some ?j |- _ =>
      apply index_lt, lookup_lt_is_Some_2 in H as [c ->] end. eauto.
  - eauto.
Qed.

Lemma setitem_locate a x y v :
  setitem a x y v =
  match locate a x y with
  | Some (i, j) => Some (<[i := <[j := U2 v]> (default [] (a !! i))]> a)
  | None => None
  end.
Proof.
  unfold setitem, locate. destruct (index (length a) x) as [i|]; simpl; [|done].
  destruct (a !! i) as [row|] eqn:Hrow; simpl; [|done].
  destruct (index (length row) y); simpl; [|done]. by rewrite Hrow.
Qed.

Lemma locate_setitem a a' x y v x' y' :
  setitem a x y v = Some a' → locate a' x' y' = locate a x' y'.
Proof.
  rewrite setitem_locate. destruct (locate a x y) as [[i j]|] eqn:Hl; [|done].
  intros [= <-]. unfold locate. rewrite length_insert.
  destruct (index (length a) x') as [i'|]; simpl; [|done].
  destruct (decide (i = i')) as [<-|Hne].
  - unfold locate in Hl. simplify_option_eq.
    rewrite list_lookup_insert_eq by (by eapply lookup_lt_Some).
    simpl. by rewrite length_insert.
  - by rewrite list_lookup_insert_ne.
Qed.

Lemma getitem_setitem_eq a a' x y v :
  setitem a x y v = Some a' → getitem a' x y = Some (U2 v).
Proof.
  intros Hs. apply getitem_locate.
  pose proof (locate_setitem _ _ _ _ _ x y Hs) as Hl.
  rewrite setitem_locate in Hs. destruct (locate a x y) as [[i j]|] eqn:Hl'; [|done].
  injection Hs as <-. unfold locate in Hl'. simplify_option_eq.
  eexists _, _, _. split; [done|]. split.
  - apply list_lookup_insert_eq. by eapply lookup_lt_Some.
  - apply list_lookup_insert_eq. by eapply index_lt.
Qed.

Lemma getitem_via_locate b x y :
  getitem b x y = '(i, j) ← locate b x y; b !! i ≫= (.!! j).
Proof.
  unfold getitem, locate.
  destruct (index (length b) x) as [i'|]; simpl; [|done].
  destruct (b !! i') as [row|] eqn:Hrow; simpl; [|done].
  destruct (index (length row) y); simpl; [|done]. by rewrite Hrow.
Qed.

Lemma getitem_setitem_ne a a' x y v x' y' :
  setitem a x y v = Some a' → locate a x' y' ≠ locate a x y →
  getitem a' x' y' = getitem a x' y'.
Proof.
  intros Hs Hne.
  rewrite !getitem_via_locate, (locate_setitem _ _ _ _ _ x' y' Hs).
  rewrite setitem_locate in Hs. destruct (locate a x y) as [[i j]|] eqn:Hl; [|done].
  injection Hs as <-. destruct (locate a x' y') as [[i' j']|]; simpl; [|done].
  destruct (decide (i = i')) as [<-|Hi].
  - destruct (a !! i) as [row|] eqn:Hrow; simpl.
    + rewrite list_lookup_insert_eq by (by eapply lookup_lt_Some). simpl.
      rewrite list_lookup_insert_ne; [done|congruence].
    + rewrite list_insert_ge; [by rewrite Hrow|]. by apply lookup_ge_None.
  - by rewrite list_lookup_insert_ne.
Qed.

Lemma getitem_setitem_cases a a' x y v x' y' t :
  setitem a x y v = Some a' → getitem a' x' y' = Some t →
  t = U2 v ∨ getitem a x' y' = Some t.
Proof.
  intros Hs Hg. destruct (decide (locate a x' y' = locate a x y)) as [Heq|Hne].
  - left. rewrite getitem_via_locate, (locate_setitem _ _ _ _ _ x' y' Hs), Heq in Hg.
    rewrite <-(locate_setitem _ _ _ _ _ x y Hs), <-getitem_via_locate in Hg.
    rewrite (getitem_setitem_eq _ _ _ _ _ Hs) in Hg. congruence.
  - right. by rewrite <-Hg, (getitem_setitem_ne _ _ _ _ _ _ _ Hs Hne).
Qed.

Lemma setitem_is_Some a x y v : is_Some (getitem a x y) → is_Some (setitem a x y v).
Proof.
  rewrite <-locate_is_Some, setitem_locate. intros [[i j] ->]. eauto.
Qed.

Lemma setitem_setitem a a' x y v w :
  setitem a x y v = Some a' → setitem a' x y w = setitem a x y w.
Proof.
  intros Hs. rewrite !setitem_locate, (locate_setitem _ _ _ _ _ x y Hs).
  rewrite setitem_locate in Hs. destruct (locate a x y) as [[i j]|] eqn:Hl; [|done].
  injection Hs as <-. unfold locate in Hl. simplify_option_eq.
  rewrite list_lookup_insert_eq by (by eapply lookup_lt_Some). simpl.
  by rewrite !list_insert_insert_eq.
Qed.

Lemma setitem_id a x y c : getitem a x y = Some c → U2 c = c → setitem a x y c = Some a.
Proof.
  intros (i & j & row & Hl & Hrow & Hc)%getitem_locate HU.
  rewrite setitem_locate, Hl, Hrow, HU. simpl.
  by rewrite (list_insert_id row), (list_insert_id a).
Qed.

(** ** The grid reference *)

Lemma the_grid_write a st :
  (grid st < length (store st))%nat → the_grid (write_grid a st) = a.
Proof. intros. unfold the_grid. simpl. by rewrite list_lookup_insert_eq. Qed.

Lemma the_grid_set_tiles t st : the_grid (set_tiles t st) = the_grid st.
Proof. done. Qed.

Lemma getitem_grid_valid st x y :
  is_Some (getitem (the_grid st) x y) → (grid st < length (store st))%nat.
Proof.
  unfold the_grid. intros [c Hc]. apply lookup_lt_is_Some.
  destruct (store st !! grid st); [eauto|]. by destruct x.
Qed.

Lemma catalog_ids_fit : Forall fits_cell (dict_keys TILE_DIRECTIONS).
Proof. repeat (constructor; [by vm_compute; split|]). constructor. Qed.

(** ** Placement *)

(** ** Path finding *)

Lemma dict_get_elem_of {V} (d : list (string * V)) k v : dict_get k d = Some v → (k, v) ∈ d.
Proof.
  induction d as [|[k' v'] d IH]; simpl; [done|].
  case_decide; intros; simplify_eq; [left | right; auto].
Qed.

Lemma catalog_directions_short tile_id dirs :
  dict_get tile_id TILE_DIRECTIONS = Some dirs → (length dirs ≤ 12)%nat.
Proof.
  intros H%dict_get_elem_of.
  assert (Forall (λ e, length e.2 ≤ 12)%nat TILE_DIRECTIONS) as Hall.
  { repeat (constructor; [simpl; lia|]). constructor. }
  by apply (proj1 (Forall_forall _ _) Hall) in H.
Qed.

Opaque TILE_DIRECTIONS.

Lemma bfs_same_endpoints st s : bfs st s s = Ok (Some []).
Proof.
  unfold bfs, bfs_fuel. destruct s as [x y]. simpl.
  by rewrite bool_decide_eq_true_2.
Qed.

Lemma bfs_vacant_start st s e :
  s ≠ e → vacant st s.1 s.2 → bfs st s e = Ok None.
Proof.
  unfold bfs, bfs_fuel, vacant. destruct s as [x y]. simpl. intros Hne Hv.
  rewrite bool_decide_eq_false_2 by done.
  rewrite bool_decide_eq_false_2 by set_solver.
  rewrite Hv. by rewrite bool_decide_eq_false_2 by naive_solver.
Qed.

Lemma enqueue_Forall (P : (Z * Z) * list (Z * Z) → Prop) st x y path visited dirs queue :
  Forall P queue →
  (∀ d, d ∈ dirs → is_valid st (x + d.1) (y + d.2) = true →
        P ((x + d.1, y + d.2), path ++ [(x, y)])) →
  Forall P (enqueue st x y path visited dirs queue).
Proof.
  unfold enqueue. revert queue.
  induction dirs as [|d dirs IH]; intros queue Hq Hd; simpl; [done|].
  apply IH.
  - destruct (is_valid _ _ _) eqn:Hv; simpl; [|done].
    case_bool_decide; [|done].
    apply Forall_app. split; [done|]. constructor; [|done].
    apply Hd; [left|done].
  - intros d' ??. apply Hd; [by right|done].
Qed.

Lemma enqueue_length st x y path visited dirs queue :
  (length (enqueue st x y path visited dirs queue) ≤ length queue + length dirs)%nat.
Proof.
  unfold enqueue. revert queue.
  induction dirs as [|d dirs IH]; intros queue; simpl; [lia|].
  etrans; [apply IH|].
  destruct (_ && _); [rewrite length_app; simpl|]; lia.
Qed.

(** What the loop returns is a way from the start to the target that never
    passes the target. *)
Lemma bfs_loop_walk st s e fuel : ∀ queue visited path,
  Forall (λ q, walk st s q.2 q.1 ∧ e ∉ q.2) queue →
  bfs_loop fuel st e queue visited = Ok (Some path) →
  walk st s path e ∧ e ∉ path.
Proof.
  induction fuel as [|fuel IH]; intros queue visited path Hq; simpl; [done|].
  destruct queue as [|[[x y] p] queue]; [done|].
  apply Forall_cons in Hq as [[Hw Hn] Hq]. simpl in Hw, Hn.
  case_bool_decide as He; [intros [= <-]; by subst e|].
  case_bool_decide; [by apply IH|].
  destruct (getitem (the_grid st) x y) as [tile_id|] eqn:Hg; [|done].
  case_bool_decide as Ht; [|by apply IH].
  destruct (dict_get tile_id TILE_DIRECTIONS) as [dirs|] eqn:Hd; [|done].
  apply IH. apply enqueue_Forall; [done|].
  intros d Hin Hv. simpl. split.
  - by eapply (walk_step st s p (x, y)).
  - intros [?|Heq%list_elem_of_singleton]%elem_of_app; [done|]. by subst e.
Qed.

Lemma bfs_walk st s e path :
  bfs st s e = Ok (Some path) → walk st s path e ∧ e ∉ path.
Proof.
  apply bfs_loop_walk. constructor; [|done]. simpl. split; [constructor|].
  apply not_elem_of_nil.
Qed.

Lemma walk_cells st s path c :
  walk st s path c →
  Forall (λ p, ∃ tile_id, getitem (the_grid st) p.1 p.2 = Some tile_id ∧
                          tile_id ≠ EmptyString ∧
                          is_Some (dict_get tile_id TILE_DIRECTIONS)) path.
Proof.
  induction 1; [constructor|]. apply Forall_app. split; [done|].
  constructor; [|done]. eauto 6.
Qed.

Lemma walk_first st s path c :
  walk st s path c → (path = [] ∧ c = s) ∨ (∃ rest, path = s :: rest).
Proof.
  induction 1; [by left|]. right.
  destruct IHwalk as [[-> ->]|[rest ->]]; simpl; eauto.
Qed.

(** *** The loop terminates within its fuel *)

Lemma elem_of_all_cells st x y : is_valid st x y = true → (x, y) ∈ all_cells st.
Proof.
  unfold is_valid, all_cells. intros ?%bool_decide_eq_true.
  apply list_elem_of_bind. exists x. split; [|apply elem_of_seqZ; lia].
  apply list_elem_of_bind. exists y. split; [by left|apply elem_of_seqZ; lia].
Qed.

Lemma length_pairs {A B} (xs : list A) (ys : list B) :
  length (a ← xs; b ← ys; [(a, b)]) = (length xs * length ys)%nat.
Proof.
  induction xs as [|a xs IH]; csimpl; [done|].
  rewrite length_app, IH. f_equal. clear IH.
  induction ys as [|b ys IHy]; csimpl; [done|]. by rewrite IHy.
Qed.

Lemma length_all_cells st :
  length (all_cells st) = (Z.to_nat (height st) * Z.to_nat (width st))%nat.
Proof. unfold all_cells. by rewrite length_pairs, !length_seqZ. Qed.

Lemma unseen_le cells visited : (unseen cells visited ≤ length cells)%nat.
Proof. apply length_filter. Qed.

Lemma unseen_mono cells visited c :
  (unseen cells (visited ∪ {[c]}) ≤ unseen cells visited)%nat.
Proof.
  unfold unseen. induction cells as [|a cells IH]; [done|].
  rewrite !filter_cons. repeat case_decide; simpl; try lia. set_solver.
Qed.

Lemma unseen_visit cells visited c :
  c ∈ cells → c ∉ visited →
  (unseen cells (visited ∪ {[c]}) < unseen cells visited)%nat.
Proof.
  intros Hin Hnv. induction cells as [|a cells IH]; [by apply elem_of_nil in Hin|].
  pose proof (unseen_mono cells visited c) as Hm.
  unfold unseen in *. rewrite !filter_cons.
  apply elem_of_cons in Hin as [<-|Hin].
  - rewrite decide_False by set_solver. rewrite decide_True by done. simpl. lia.
  - specialize (IH Hin). repeat case_decide; simpl; try lia. set_solver.
Qed.

Lemma bfs_loop_enough_fuel st e cells fuel : ∀ queue visited,
  (∀ x y, is_valid st x y = true → (x, y) ∈ cells) →
  Forall (λ q, q.1 ∈ cells) queue →
  (length queue + 13 * unseen cells visited < fuel)%nat →
  bfs_loop fuel st e queue visited ≠ Err OutOfFuel.
Proof.
  induction fuel as [|fuel IH]; intros queue visited Hc Hq Hf; [lia|]. simpl.
  destruct queue as [|[[x y] p] queue]; [done|].
  apply Forall_cons in Hq as [Hx Hq]. simpl in Hx, Hf.
  case_bool_decide; [done|].
  case_bool_decide as Hv; [apply IH; [done..|lia]|].
  pose proof (unseen_visit cells visited (x, y) Hx Hv).
  destruct (getitem (the_grid st) x y) as [tile_id|]; [|done].
  case_bool_decide; [|apply IH; [done..|lia]].
  destruct (dict_get tile_id TILE_DIRECTIONS) as [dirs|] eqn:Hd; [|done].
  apply catalog_directions_short in Hd.
  pose proof (enqueue_length st x y p (visited ∪ {[(x, y)]}) dirs queue).
  apply IH; [done| |lia].
  apply enqueue_Forall; [done|]. intros d _ ?. simpl. by apply Hc.
Qed.

(** [bfs] always comes back: with a path, with [None], or with a Python
    exception, never because the model ran out of iterations. *)
Lemma bfs_terminates st s e : bfs st s e ≠ Err OutOfFuel.
Proof.
  unfold bfs. apply (bfs_loop_enough_fuel st e (s :: all_cells st)).
  - intros x y ?. right. by apply elem_of_all_cells.
  - constructor; [by left|done].
  - pose proof (unseen_le (s :: all_cells st) ∅) as Hle.
    simpl in Hle. rewrite length_all_cells in Hle. unfold bfs_fuel. simpl. lia.
Qed.

(** ** Scoring *)

Lemma Zsum_cons x l : Zsum (x :: l) = x + Zsum l.
Proof. done. Qed.

Lemma sum_values_add_cost tile_id c m :
  sum_values (add_cost tile_id c m) = sum_values m + c.
Proof.
  unfold sum_values, add_cost.
  assert (∀ (m' : gmap string Z) v, m' !! tile_id = None →
            map_fold (λ _ v acc, acc + v) 0 (<[tile_id := v]> m')
            = map_fold (λ _ v acc, acc + v) 0 m' + v) as Hins.
  { intros m' v Hm'. rewrite map_fold_insert_L; [done| |done]. intros. lia. }
  destruct (m !! tile_id) as [v|] eqn:Hm; simpl.
  - rewrite <-(insert_delete_eq m), Hins by apply lookup_delete_eq.
    rewrite <-(insert_delete_id m tile_id v) at 2 by done.
    rewrite Hins by apply lookup_delete_eq. lia.
  - rewrite Hins by done. lia.
Qed.

Lemma score_cell_sums st l p l' :
  score_cell st l p = Ok l' →
  path_score l' = path_score l + bonus_at st p ∧
  sum_values (tile_costs l') = sum_values (tile_costs l) + cost_at st p.
Proof.
  unfold score_cell, bonus_at, cost_at, add_bonus, silver_bonus.
  destruct (getitem (the_grid st) p.1 p.2) as [tile_id|]; [|done].
  case_bool_decide; [|intros [= <-]; lia].
  destruct (dict_get tile_id (tiles st)) as [[cost count]|]; [|by case_bool_decide].
  case_bool_decide; intros [= <-]; simpl; rewrite sum_values_add_cost;
    destruct (silver_points st !! p); simpl; lia.
Qed.

Lemma score_path_sums st path : ∀ l l',
  score_path st path l = Ok l' →
  path_score l' = path_score l + Zsum (bonus_at st <$> path) ∧
  sum_values (tile_costs l') = sum_values (tile_costs l) + path_cost st path.
Proof.
  unfold path_cost. induction path as [|p path IH]; intros l l' Hp; simpl in Hp.
  - injection Hp as <-. unfold Zsum. simpl. lia.
  - destruct (score_cell st l p) as [l1|] eqn:Hc; [|done]. simpl in Hp.
    apply score_cell_sums in Hc. apply IH in Hp.
    rewrite !fmap_cons, !Zsum_cons. lia.
Qed.

(** On a way that [bfs] returned every cell holds a tile, so the test that
    guards the bonus in the scoring loop is always passed. *)
Lemma walk_bonus st s path c :
  walk st s path c → Zsum (bonus_at st <$> path) = path_bonus st path.
Proof.
  intros Hw%walk_cells. unfold path_bonus.
  induction Hw as [|p path (tile_id & Hg & Ht & _) _ IH]; [done|].
  rewrite !fmap_cons, !Zsum_cons, IH. f_equal. unfold bonus_at. rewrite Hg.
  by rewrite bool_decide_eq_true_2.
Qed.

Lemma score_pairs_sums st pairs : ∀ total costs seen z,
  score_pairs st pairs total costs seen = Ok (Fin z) →
  ∃ paths, computed_paths st pairs paths ∧
    z = (total + Zsum (path_bonus st <$> paths))
        - (sum_values costs + Zsum (path_cost st <$> paths)).
Proof.
  unfold computed_paths.
  induction pairs as [|[s e] pairs IH]; intros total costs seen z; simpl.
  - intros [= <-]. exists []. split; [constructor|]. unfold Zsum. simpl. lia.
  - destruct (bfs st s e) as [[path|]|] eqn:Hb; simpl; [|done..].
    destruct path as [|p path]; [done|].
    destruct (score_path st (p :: path) _) as [l|] eqn:Hp; [|done].
    change (mbind ?f (Ok l)) with (f l). cbv beta.
    intros (paths & Hpaths & ->)%IH.
    apply score_path_sums in Hp as [Hps Hcs]. cbn [path_score tile_costs] in Hps, Hcs.
    pose proof (proj1 (bfs_walk _ _ _ _ Hb)) as Hw.
    rewrite (walk_bonus _ _ _ _ Hw) in Hps.
    exists ((p :: path) :: paths). split; [by constructor|].
    rewrite Hps, Hcs, !fmap_cons, !Zsum_cons. lia.
Qed.

(** *** The tracking set does not matter *)

Lemma score_cell_forget st l p :
  result_map forget (score_cell st l p) = score_cell_plain st (forget l) p.
Proof.
  unfold score_cell, score_cell_plain.
  destruct (getitem (the_grid st) p.1 p.2) as [tile_id|]; [|done].
  case_bool_decide; [|done].
  destruct (dict_get tile_id (tiles st)) as [[cost count]|]; by case_bool_decide.
Qed.

Lemma score_path_forget st path : ∀ l,
  result_map forget (score_path st path l) = score_path_plain st path (forget l).
Proof.
  induction path as [|p path IH]; intros l; simpl; [done|].
  rewrite <-score_cell_forget. destruct (score_cell st l p) as [l'|]; simpl; [|done].
  apply IH.
Qed.

Arguments score_path : simpl never.
Arguments score_path_plain : simpl never.

Lemma score_pairs_forget st pairs : ∀ total costs seen,
  score_pairs st pairs total costs seen = score_pairs_plain st pairs total costs.
Proof.
  induction pairs as [|[s e] pairs IH]; intros total costs seen; simpl; [done|].
  destruct (bfs st s e) as [[[|p path]|]|]; simpl; [done| |done..].
  pose proof (score_path_forget st (p :: path) (mkLedger 0 costs seen)) as Hf.
  unfold forget at 2 in Hf. cbn [path_score tile_costs] in Hf. rewrite <-Hf.
  destruct (score_path st (p :: path) _) as [l|]; simpl; [|done]. apply IH.
Qed.

Lemma calculate_score_disconnected st :
  (2 ≤ length (golden_points st))%nat →
  (∀ p, p ∈ golden_points st → vacant st p.1 p.2) →
  calculate_score st = Ok NegInf.
Proof.
  unfold calculate_score. intros Hlen Hclear.
  destruct (golden_points st) as [|s [|e rest]] eqn:Hgp; simpl in Hlen; [lia..|].
  simpl. destruct (decide (s = e)) as [<-|Hne].
  - by rewrite bfs_same_endpoints.
  - rewrite bfs_vacant_start; [done..|]. apply Hclear. by left.
Qed.

(** ** The search *)

Lemma evaluate_unfold st :
  evaluate st =
  match calculate_score st with
  | Err e => Raise e st
  | Ok sc =>
      if score_gt sc (best_score st)
      then Return tt (set_best sc (Some (length (store st)))
                        (set_store (store st ++ [the_grid st]) st))
      else Return tt st
  end.
Proof.
  unfold evaluate, mbind, M_bind, bind, get, lift. simpl.
  destruct (calculate_score st) as [sc|e]; simpl; [|done].
  by destruct (score_gt sc (best_score st)).
Qed.

Lemma backtrack_unfold fuel x y st :
  backtrack (S fuel) x y st =
  let st1 := set_ticks (S (ticks st)) st in
  if Qgtb (clock st (ticks st) - start_time st)%Q (time_limit st) then Return tt st1
  else if bool_decide (x = height st) then evaluate st1
  else if bool_decide (y = width st) then backtrack fuel (x + 1) 0 st1
  else match backtrack fuel x (y + 1) st1 with
       | Return _ st2 =>
           for_each (dict_keys (tiles st2)) (try_tile (backtrack fuel x (y + 1)) x y) st2
       | Raise e st2 => Raise e st2
       end.
Proof.
  simpl. unfold mbind, M_bind, bind, time_time, get. simpl.
  destruct (Qgtb _ _); [done|].
  destruct (bool_decide (x = height st)); [done|].
  by destruct (bool_decide (y = width st)).
Qed.

Lemma try_tile_unfold next x y tile_id st :
  try_tile next x y tile_id st =
  match place_tile x y tile_id st with
  | Return true st1 =>
      match next st1 with
      | Return _ st2 => remove_tile x y st2
      | Raise e st2 => Raise e st2
      end
  | Return false st1 => Return tt st1
  | Raise e st1 => Raise e st1
  end.
Proof.
  unfold try_tile, mbind, M_bind, bind.
  by destruct (place_tile x y tile_id st) as [[] ?|].
Qed.

Lemma for_each_cons {A} (a : A) l body st :
  for_each (a :: l) body st =
  match body a st with
  | Return _ st1 => for_each l body st1
  | Raise e st1 => Raise e st1
  end.
Proof. done. Qed.

Lemma solve_unfold st :
  solve st =
  match backtrack (search_fuel st) 0 0 st with
  | Return _ st' => Return (best_solution st', best_score st') st'
  | Raise e st' => Raise e st'
  end.
Proof.
  unfold solve, mbind, M_bind, bind, get.
  by destruct (backtrack (search_fuel st) 0 0 st).
Qed.

Opaque backtrack.

(** *** What every step of the search preserves *)

Section stable.
Context (R : relation ChickNorrisTV) `{!PreOrder R}.

Lemma stable_for_each {A} (l : list A) (body : A → M unit) :
  (∀ a, stable R (body a)) → stable R (for_each l body).
Proof.
  intros Hb. induction l as [|a l IH]; intros st; [simpl; reflexivity|].
  rewrite for_each_cons. specialize (Hb a st).
  destruct (body a st) as [[] st1|e st1]; simpl in *; [|done].
  etrans; [done|]. apply IH.
Qed.

Lemma stable_try_tile next x y tile_id :
  stable R (place_tile x y tile_id) → stable R next → stable R (remove_tile x y) →
  stable R (try_tile next x y tile_id).
Proof.
  intros Hp Hn Hr st. rewrite try_tile_unfold. specialize (Hp st).
  destruct (place_tile x y tile_id st) as [[] st1|e st1]; simpl in *; [|done..].
  specialize (Hn st1). destruct (next st1) as [[] st2|e st2]; simpl in *.
  - etrans; [done|]. etrans; [done|]. apply Hr.
  - by etrans.
Qed.

(** [ok x y]: a position that the search can be at. *)
Context (ok : Z → Z → Prop).
Hypothesis ok_right : ∀ x y, ok x y → ok x (y + 1).
Hypothesis ok_down : ∀ x y, ok x y → ok (x + 1) 0.

Hypothesis R_tick : ∀ st, R st (set_ticks (S (ticks st)) st).
Hypothesis R_place : ∀ x y tile_id, ok x y → stable R (place_tile x y tile_id).
Hypothesis R_remove : ∀ x y, stable R (remove_tile x y).
Hypothesis R_evaluate : stable R evaluate.

Lemma stable_backtrack fuel : ∀ x y, ok x y → stable R (backtrack fuel x y).
Proof.
  induction fuel as [|fuel IH]; intros x y Hok st; [reflexivity|].
  rewrite backtrack_unfold. cbv zeta.
  pose proof (R_tick st) as Ht.
  destruct (Qgtb _ _); [done|].
  destruct (bool_decide (x = height st)); [etrans; [done|apply R_evaluate]|].
  destruct (bool_decide (y = width st)); [etrans; [done|by apply IH, (ok_down x y)]|].
  pose proof (IH x (y + 1) (ok_right _ _ Hok) (set_ticks (S (ticks st)) st)) as H1.
  destruct (backtrack fuel x (y + 1) _) as [[] st2|e st2]; simpl in H1; [|by etrans].
  etrans; [done|]. etrans; [done|].
  apply stable_for_each. intros tile_id.
  apply stable_try_tile; [by apply R_place|by apply IH, ok_right|done].
Qed.

Lemma stable_solve : ok 0 0 → stable R solve.
Proof.
  intros Hok st. rewrite solve_unfold.
  pose proof (stable_backtrack (search_fuel st) 0 0 Hok st) as H.
  by destruct (backtrack (search_fuel st) 0 0 st).
Qed.
End stable.

(** *** The outcomes of the primitives *)

Lemma place_tile_cases x y tile_id st :
  place_tile x y tile_id st = Return false st ∨
  place_tile x y tile_id st = Raise IndexError st ∨
  (dict_get tile_id (tiles st) = None ∧ place_tile x y tile_id st = Raise KeyError st) ∨
  (∃ a cost count,
      vacant st x y ∧ dict_get tile_id (tiles st) = Some (cost, count) ∧ 0 < count ∧
      setitem (the_grid st) x y tile_id = Some a ∧
      place_tile x y tile_id st
      = Return true (set_tiles (dict_set tile_id (cost, count - 1) (tiles st))
                       (write_grid a st))).
Proof.
  unfold place_tile, vacant. destruct (_ || _); [by left|].
  destruct (getitem (the_grid st) x y) as [cell|]; [|by right; left].
  case_bool_decide as Hc; [by left|]. subst cell.
  destruct (dict_get tile_id (tiles st)) as [[cost count]|]; [|by right; right; left].
  case_bool_decide; [by left|].
  destruct (setitem (the_grid st) x y tile_id) as [a|]; [|by right; left].
  right; right; right. exists a, cost, count. split; [done|]. split; [done|].
  split; [lia|]. by split.
Qed.

Lemma remove_tile_cases x y st :
  remove_tile x y st = Return tt st ∨
  remove_tile x y st = Raise IndexError st ∨
  (∃ tile_id a,
      getitem (the_grid st) x y = Some tile_id ∧ tile_id ≠ EmptyString ∧
      setitem (the_grid st) x y EmptyString = Some a ∧
      ((dict_get tile_id (tiles st) = None ∧
        remove_tile x y st = Raise KeyError (write_grid a st)) ∨
       (∃ cost count,
           dict_get tile_id (tiles st) = Some (cost, count) ∧
           remove_tile x y st
           = Return tt (set_tiles (dict_set tile_id (cost, count + 1) (tiles st))
                          (write_grid a st))))).
Proof.
  unfold remove_tile.
  destruct (getitem (the_grid st) x y) as [tile_id|]; [|by right; left].
  case_bool_decide; [|by left].
  destruct (setitem (the_grid st) x y EmptyString) as [a|]; [|by right; left].
  right; right. exists tile_id, a. split; [done|]. split; [done|]. split; [done|].
  simpl. destruct (dict_get tile_id (tiles st)) as [[cost count]|]; [right; eauto|by left].
Qed.

(** *** [evolves] is kept by every step *)

Ltac evolves_easy :=
  try done; try (by left); try (by repeat split);
  try (unfold same_run; simpl; repeat split; simpl; lia).

Global Instance evolves_preorder : PreOrder evolves.
Proof.
  split.
  - intros st. split; evolves_easy.
  - intros a b c Hab Hbc. destruct Hab, Hbc. unfold same_run in *.
    split; try congruence; try lia.
    + destruct_and!. repeat split; try congruence. lia.
    + intros r arr Hr Hl. apply ev_store1; [congruence|]. by apply ev_store0.
    + destruct ev_best0 as [[Hs0 Hb0]|[Hg0 (r0 & Hr0 & Hlt0)]],
        ev_best1 as [[Hs1 Hb1]|[Hg1 (r1 & Hr1 & Hlt1)]].
      * left. split; congruence.
      * right. rewrite <-Hb0. split; [done|]. exists r1. split; [done|lia].
      * right. rewrite Hb1. split; [done|]. exists r0. split; [congruence|lia].
      * right. split; [|exists r1; split; [done|lia]].
        destruct (best_score c), (best_score b), (best_score a); simpl in *;
          try done. apply bool_decide_eq_true. apply bool_decide_eq_true in Hg0, Hg1. lia.
Qed.

Lemma evolves_tick st : evolves st (set_ticks (S (ticks st)) st).
Proof. split; evolves_easy. Qed.

Lemma evolves_write_grid a st : evolves st (write_grid a st).
Proof.
  split; evolves_easy; simpl.
  - by rewrite length_insert.
  - intros r arr Hr Hl. by rewrite list_lookup_insert_ne.
Qed.

Lemma evolves_set_tiles k v w st :
  dict_get k (tiles st) = Some w → evolves st (set_tiles (dict_set k v (tiles st)) st).
Proof.
  intros Hk. split; evolves_easy; simpl. by eapply dict_keys_set.
Qed.

Lemma evolves_place x y tile_id : stable evolves (place_tile x y tile_id).
Proof.
  intros st.
  destruct (place_tile_cases x y tile_id st)
    as [->|[->|[[_ ->]|(a & cost & count & _ & Hd & _ & _ & ->)]]]; simpl; [done..|].
  etrans; [apply (evolves_write_grid a)|].
  by apply (evolves_set_tiles tile_id _ (cost, count) (write_grid a st)).
Qed.

Lemma evolves_remove x y : stable evolves (remove_tile x y).
Proof.
  intros st.
  destruct (remove_tile_cases x y st)
    as [->|[->|(id & a & _ & _ & _ & [[_ ->]|(cost & count & Hd & ->)])]]; simpl;
    [done..|apply evolves_write_grid|].
  etrans; [apply (evolves_write_grid a)|].
  by apply (evolves_set_tiles id _ (cost, count) (write_grid a st)).
Qed.

Lemma evolves_evaluate : stable evolves evaluate.
Proof.
  intros st. rewrite evaluate_unfold.
  destruct (calculate_score st) as [sc|e]; simpl; [|done].
  destruct (score_gt sc (best_score st)) eqn:Hgt; simpl; [|done].
  split; evolves_easy; simpl.
  - rewrite length_app. lia.
  - intros r arr _ Hl. by apply lookup_app_l_Some.
  - right. split; [done|]. eexists. split; [done|]. rewrite length_app. simpl. lia.
Qed.

Lemma evolves_backtrack fuel x y : stable evolves (backtrack fuel x y).
Proof.
  apply (stable_backtrack evolves (λ _ _, True));
    auto using evolves_tick, evolves_place, evolves_remove, evolves_evaluate.
Qed.

(** *** Counts never go below zero *)

Global Instance keeps_preorder I : PreOrder (keeps I).
Proof. split; unfold keeps; [by intros ?|intros ???; auto]. Qed.

Lemma counts_nonneg_set d k c n :
  counts_nonneg d → 0 ≤ n → counts_nonneg (dict_set k (c, n) d).
Proof.
  unfold counts_nonneg. intros Hd Hn.
  induction Hd as [|[k' v'] d Hv Hd IH]; simpl; [by repeat constructor|].
  case_decide; by constructor.
Qed.

Lemma counts_nonneg_get d k c n : counts_nonneg d → dict_get k d = Some (c, n) → 0 ≤ n.
Proof.
  intros Hd Hk%dict_get_elem_of.
  by apply (proj1 (Forall_forall _ _) Hd) in Hk.
Qed.

Lemma never_negative_set_tiles k c n st :
  0 ≤ n → never_negative st → never_negative (set_tiles (dict_set k (c, n) (tiles st)) st).
Proof.
  intros Hn [Ht Hh]. pose proof (counts_nonneg_set _ k c n Ht Hn).
  split; simpl; [done|by constructor].
Qed.

Lemma never_negative_place x y tile_id : stable (keeps never_negative) (place_tile x y tile_id).
Proof.
  intros st Hnn.
  destruct (place_tile_cases x y tile_id st)
    as [->|[->|[[_ ->]|(a & cost & count & _ & Hd & Hpos & _ & ->)]]]; simpl; [done..|].
  apply (never_negative_set_tiles tile_id cost (count - 1) (write_grid a st)); [lia|done].
Qed.

Lemma never_negative_remove x y : stable (keeps never_negative) (remove_tile x y).
Proof.
  intros st Hnn.
  destruct (remove_tile_cases x y st)
    as [->|[->|(id & a & _ & _ & _ & [[_ ->]|(cost & count & Hd & ->)])]]; simpl;
    [done..|].
  apply (never_negative_set_tiles id cost (count + 1) (write_grid a st)); [|done].
  destruct Hnn as [Ht _]. pose proof (counts_nonneg_get _ _ _ _ Ht Hd). lia.
Qed.

Lemma never_negative_evaluate : stable (keeps never_negative) evaluate.
Proof.
  intros st Hnn. rewrite evaluate_unfold.
  destruct (calculate_score st) as [sc|e]; simpl; [|done].
  by destruct (score_gt sc (best_score st)).
Qed.

Lemma never_negative_solve : stable (keeps never_negative) solve.
Proof.
  apply (stable_solve (keeps never_negative) (λ _ _, True));
    auto using never_negative_place, never_negative_remove, never_negative_evaluate.
  intros st H. exact H.
Qed.

(** *** Every placement is undone *)

Lemma same_board_ids_fit st st' : same_board st st' → ids_fit st → ids_fit st'.
Proof. intros (_ & Ht & _). unfold ids_fit. by rewrite Ht. Qed.

Lemma same_board_trans a b c : same_board a b → same_board b c → same_board a c.
Proof. unfold same_board. intros (? & ? & ?) (? & ? & ?). repeat split; congruence. Qed.

Lemma the_grid_snapshot st : the_grid (set_store (store st ++ [the_grid st]) st) = the_grid st.
Proof.
  unfold the_grid. simpl. destruct (store st !! grid st) as [g|] eqn:Hg.
  - by rewrite (lookup_app_l_Some _ _ _ _ Hg).
  - apply lookup_ge_None in Hg. destruct (decide (grid st = length (store st))) as [->|].
    + by rewrite list_lookup_middle.
    + rewrite lookup_ge_None_2; [done|]. rewrite length_app. simpl. lia.
Qed.

Lemma evaluate_same_board st st' : evaluate st = Return tt st' → same_board st st'.
Proof.
  rewrite evaluate_unfold. destruct (calculate_score st) as [sc|e]; [|done].
  destruct (score_gt sc (best_score st)); intros [= <-]; [|done].
  split; [|done]. apply the_grid_snapshot.
Qed.

(** After a placement at an empty cell and any work that left the board as
    the placement made it, [remove_tile] puts the board back. *)
Lemma remove_undoes_place x y tile_id st a cost count st1 :
  fits_cell tile_id → vacant st x y →
  dict_get tile_id (tiles st) = Some (cost, count) →
  setitem (the_grid st) x y tile_id = Some a →
  same_board (set_tiles (dict_set tile_id (cost, count - 1) (tiles st)) (write_grid a st)) st1 →
  ∃ st2', remove_tile x y st1 = Return tt st2' ∧ same_board st st2'.
Proof.
  intros [HU Hne] Hv Hd Ha (Hg & Ht & Hr). simpl in Ht, Hr.
  rewrite the_grid_set_tiles, (the_grid_write a) in Hg
    by (eapply getitem_grid_valid; by rewrite Hv).
  assert (getitem (the_grid st1) x y = Some tile_id) as Hcell.
  { by rewrite Hg, (getitem_setitem_eq _ _ _ _ _ Ha), HU. }
  assert (setitem (the_grid st1) x y EmptyString = Some (the_grid st)) as Hback.
  { rewrite Hg, (setitem_setitem _ _ _ _ _ _ Ha). by apply setitem_id. }
  eexists. unfold remove_tile. rewrite Hcell, Hback.
  rewrite bool_decide_eq_true_2 by done. simpl.
  rewrite Ht, dict_get_set_eq. split; [done|].
  split; [|split]; simpl.
  - apply the_grid_write. eapply getitem_grid_valid. by rewrite Hcell.
  - rewrite dict_set_set. apply dict_set_id. rewrite Hd. do 2 f_equal. lia.
  - exact Hr.
Qed.

Lemma try_tile_restores next x y tile_id st st' :
  fits_cell tile_id →
  (∀ s s', tiles s = tiles (final (place_tile x y tile_id st)) →
           next s = Return tt s' → same_board s s') →
  try_tile next x y tile_id st = Return tt st' → same_board st st'.
Proof.
  intros Hfit Hnext. rewrite try_tile_unfold.
  destruct (place_tile_cases x y tile_id st)
    as [->|[->|[[_ ->]|(a & cost & count & Hv & Hd & Hpos & Ha & Hp)]]];
    [by intros [= <-]|done..|].
  rewrite Hp in Hnext |- *. simpl in Hnext.
  destruct (next _) as [[] st1|e st1] eqn:Hn; [|done].
  apply Hnext in Hn; [|done]. intros Hr.
  destruct (remove_undoes_place x y tile_id st a cost count st1 Hfit Hv Hd Ha Hn)
    as (st2 & Hr' & Hsame).
  congruence.
Qed.

Lemma for_each_restores keys (body : string → M unit) : ∀ st st',
  (∀ tile_id s s', tile_id ∈ keys → ids_fit s → body tile_id s = Return tt s' →
                   same_board s s') →
  ids_fit st → for_each keys body st = Return tt st' → same_board st st'.
Proof.
  induction keys as [|k keys IH]; intros st st' Hb Hfit.
  - by intros [= <-].
  - rewrite for_each_cons. destruct (body k st) as [[] st1|e st1] eqn:Hk; [|done].
    apply Hb in Hk; [|by left|done]. intros Hrest.
    eapply same_board_trans; [done|]. apply IH; [|by eapply same_board_ids_fit|done].
    intros ?????. apply Hb; [by right|done].
Qed.

Lemma backtrack_restores fuel : ∀ x y st st',
  ids_fit st → backtrack fuel x y st = Return tt st' → same_board st st'.
Proof.
  induction fuel as [|fuel IH]; intros x y st st' Hfit; [done|].
  rewrite backtrack_unfold. cbv zeta.
  assert (same_board st (set_ticks (S (ticks st)) st)) as Htick by done.
  destruct (Qgtb _ _); [by intros [= <-]|].
  destruct (bool_decide (x = height st)).
  { intros ?%evaluate_same_board. by eapply same_board_trans. }
  destruct (bool_decide (y = width st)).
  { intros ?%IH; [|done]. by eapply same_board_trans. }
  destruct (backtrack fuel x (y + 1) _) as [[] st2|e st2] eqn:H1; [|done].
  apply IH in H1; [|done]. intros Hloop.
  eapply same_board_trans; [done|]. eapply same_board_trans; [done|].
  assert (ids_fit st2) as Hfit2 by (by eapply same_board_ids_fit).
  eapply for_each_restores; [|done|done].
  intros tile_id s s' Hin Hs.
  apply try_tile_restores.
  - by apply (proj1 (Forall_forall _ _) Hfit2).
  - intros s1 s2 Ht. apply IH. unfold ids_fit. rewrite Ht.
    destruct (place_tile_cases x y tile_id s)
      as [->|[->|[[_ ->]|(a & cost & count & _ & Hd & _ & _ & ->)]]]; simpl; [done..|].
    by rewrite (dict_keys_set _ _ _ _ Hd).
Qed.

Lemma solve_restores st r st' : ids_fit st → solve st = Return r st' → same_board st st'.
Proof.
  intros Hfit. rewrite solve_unfold.
  destruct (backtrack (search_fuel st) 0 0 st) as [[] st1|e st1] eqn:Hb; [|done].
  intros [= _ <-]. by eapply backtrack_restores.
Qed.

(** *** The recursion stays within its fuel *)

Lemma score_path_fuel st path : ∀ l, score_path st path l ≠ Err OutOfFuel.
Proof.
  unfold score_path. induction path as [|p path IH]; intros l; [done|]. simpl.
  destruct (score_cell st l p) as [l'|e] eqn:Hc; simpl; [apply IH|].
  unfold score_cell in Hc.
  repeat (case_match; simplify_eq); done.
Qed.

Lemma score_pairs_fuel st pairs : ∀ total costs seen,
  score_pairs st pairs total costs seen ≠ Err OutOfFuel.
Proof.
  induction pairs as [|[s e] pairs IH]; intros total costs seen; simpl; [done|].
  pose proof (bfs_terminates st s e).
  destruct (bfs st s e) as [[[|p path]|]|]; simpl; [done| |done|congruence].
  pose proof (score_path_fuel st (p :: path) (mkLedger 0 costs seen)).
  destruct (score_path st (p :: path) _); simpl; [apply IH|congruence].
Qed.

Lemma evaluate_fuel st : fuel_ok (evaluate st).
Proof.
  intros st'. rewrite evaluate_unfold.
  pose proof (score_pairs_fuel st (combinations2 (golden_points st)) 0 ∅ ∅) as H.
  fold (calculate_score st) in H.
  destruct (calculate_score st) as [sc|e]; [by destruct (score_gt _ _)|congruence].
Qed.

Lemma place_tile_fuel x y tile_id st : fuel_ok (place_tile x y tile_id st).
Proof.
  intros st'.
  destruct (place_tile_cases x y tile_id st)
    as [->|[->|[[_ ->]|(a & cost & count & _ & _ & _ & _ & ->)]]]; done.
Qed.

Lemma remove_tile_fuel x y st : fuel_ok (remove_tile x y st).
Proof.
  intros st'.
  destruct (remove_tile_cases x y st)
    as [->|[->|(id & a & _ & _ & _ & [[_ ->]|(cost & count & Hd & ->)])]]; done.
Qed.

Lemma for_each_fuel (I : ChickNorrisTV → Prop) keys (body : string → M unit) :
  (∀ k s, I s → fuel_ok (body k s) ∧ I (final (body k s))) →
  ∀ st, I st → fuel_ok (for_each keys body st).
Proof.
  intros Hb. induction keys as [|k keys IH]; intros st HI st'; [done|].
  rewrite for_each_cons. destruct (Hb k st HI) as [Hok HI'].
  destruct (body k st) as [[] s1|e s1]; [by apply IH|].
  intros [= -> ->]. by apply (Hok st').
Qed.

Lemma backtrack_enough_fuel fuel : ∀ x y st,
  0 ≤ x ≤ height st → 0 ≤ y ≤ width st →
  0 `max` calls_left st x y < Z.of_nat fuel →
  fuel_ok (backtrack fuel x y st).
Proof.
  induction fuel as [|fuel IH]; intros x y st Hx Hy Hf; [lia|].
  intros st'. rewrite backtrack_unfold. cbv zeta.
  set (st1 := set_ticks (S (ticks st)) st).
  destruct (Qgtb _ _); [done|].
  case_bool_decide as Hxh; [apply evaluate_fuel|].
  unfold calls_left in *.
  case_bool_decide as Hyw.
  { apply IH; simpl; [lia..|]. nia. }
  assert (0 `max` ((height st - x) * (width st + 1) - (y + 1)) < Z.of_nat fuel) as Hf' by nia.
  pose proof (IH x (y + 1) st1 Hx ltac:(simpl; lia) Hf') as H1.
  pose proof (evolves_backtrack fuel x (y + 1) st1) as He1.
  destruct (backtrack fuel x (y + 1) st1) as [[] st2|e st2]; [|exact (H1 _)].
  simpl in He1.
  apply (for_each_fuel (evolves st1)); [|done].
  intros k s Hs. split.
  - intros s'. rewrite try_tile_unfold.
    pose proof (place_tile_fuel x y k s) as Hp.
    pose proof (evolves_place x y k s) as Hep.
    destruct (place_tile x y k s) as [[] s1|e s1];
      [|done|intros [= -> ->]; by apply (Hp s')].
    simpl in Hep. assert (evolves st1 s1) as [] by (by etrans).
    pose proof (IH x (y + 1) s1) as H2.
    rewrite ev_height0, ev_width0 in H2. specialize (H2 Hx ltac:(simpl; lia) Hf').
    destruct (backtrack fuel x (y + 1) s1) as [[] s2|e s2];
      [exact (remove_tile_fuel _ _ _ _)|exact (H2 _)].
  - etrans; [done|]. apply stable_try_tile; try apply _;
      auto using evolves_place, evolves_remove, evolves_backtrack.
Qed.

(** [solve] never ends for lack of fuel. *)
Lemma solve_terminates st : 0 ≤ height st → 0 ≤ width st → fuel_ok (solve st).
Proof.
  intros Hh Hw st'. rewrite solve_unfold.
  pose proof (backtrack_enough_fuel (search_fuel st) 0 0 st) as H.
  destruct (backtrack (search_fuel st) 0 0 st) as [[] s1|e s1]; [done|].
  intros [= -> ->]. refine (H _ _ _ st' eq_refl); [lia..|].
  unfold calls_left, search_fuel. nia.
Qed.

(** *** The deadline *)

Lemma Qgtb_true a b : Qgtb a b = true ↔ (b < a)%Q.
Proof.
  unfold Qgtb. rewrite negb_true_iff, <-not_true_iff_false, Qle_bool_iff.
  split; [apply Qnot_le_lt|apply Qlt_not_le].
Qed.

Lemma backtrack_expired fuel x y st :
  expired st (ticks st) →
  backtrack (S fuel) x y st = Return tt (set_ticks (S (ticks st)) st).
Proof. unfold expired. intros He. by rewrite backtrack_unfold, He. Qed.

Lemma expired_later st st' k :
  monotone (clock st) → expired st k → same_run st st' → (k ≤ ticks st')%nat →
  expired st' (ticks st').
Proof.
  unfold expired. intros Hm He (Hc & Hs & Hl & _) Hk.
  rewrite Hc, Hs, Hl. apply Qgtb_true. apply Qgtb_true in He.
  specialize (Hm k (ticks st') Hk). lra.
Qed.

(** *** The best solution *)

Lemma place_tile_keeps_best x y tile_id st :
  best_solution (final (place_tile x y tile_id st)) = best_solution st ∧
  best_score (final (place_tile x y tile_id st)) = best_score st.
Proof.
  destruct (place_tile_cases x y tile_id st)
    as [->|[->|[[_ ->]|(a & cost & count & _ & _ & _ & _ & ->)]]]; done.
Qed.

Lemma remove_tile_keeps_best x y st :
  best_solution (final (remove_tile x y st)) = best_solution st ∧
  best_score (final (remove_tile x y st)) = best_score st.
Proof.
  destruct (remove_tile_cases x y st)
    as [->|[->|(id & a & _ & _ & _ & [[_ ->]|(cost & count & Hd & ->)])]]; done.
Qed.

(** *** Identifiers outside and inside the catalog *)

Lemma bfs_loop_no_KeyError st e fuel : ∀ queue visited,
  (∀ x y t, getitem (the_grid st) x y = Some t → t ≠ EmptyString →
            is_Some (dict_get t TILE_DIRECTIONS)) →
  bfs_loop fuel st e queue visited ≠ Err KeyError.
Proof.
  induction fuel as [|fuel IH]; intros queue visited Hk; simpl; [done|].
  destruct queue as [|[[x y] p] queue]; [done|].
  case_bool_decide; [done|]. case_bool_decide; [by apply IH|].
  destruct (getitem (the_grid st) x y) as [t|] eqn:Hg; [|done].
  case_bool_decide as Ht; [|by apply IH].
  destruct (Hk x y t Hg Ht) as [dirs ->]. by apply IH.
Qed.

Lemma catalog_cells st x y t :
  catalog_inventory st → known_cells st →
  getitem (the_grid st) x y = Some t → t ≠ EmptyString →
  is_Some (dict_get t TILE_DIRECTIONS) ∧ is_Some (dict_get t (tiles st)).
Proof.
  intros Hc Hk Hg Ht. specialize (Hk x y t Hg Ht).
  split; apply dict_get_is_Some; [|done].
  by apply (proj1 (Forall_forall _ _) Hc).
Qed.

Lemma score_path_no_KeyError st path : ∀ l,
  known_cells st → score_path st path l ≠ Err KeyError.
Proof.
  unfold score_path. induction path as [|p path IH]; intros l Hk; [done|]. simpl.
  destruct (score_cell st l p) as [l'|e] eqn:Hc; simpl; [by apply IH|].
  unfold score_cell in Hc.
  destruct (getitem (the_grid st) p.1 p.2) as [t|] eqn:Hg; [|congruence].
  case_bool_decide as Ht; [|done].
  destruct (dict_get_is_Some _ _ (Hk _ _ _ Hg Ht)) as [[c n] Hd].
  rewrite Hd in Hc. by case_bool_decide.
Qed.

Lemma evaluate_no_KeyError st st' :
  catalog_inventory st → known_cells st → evaluate st ≠ Raise KeyError st'.
Proof.
  intros Hc Hk. rewrite evaluate_unfold.
  assert (calculate_score st ≠ Err KeyError) as Hs.
  { unfold calculate_score. generalize (combinations2 (golden_points st)) as pairs.
    generalize 0 as total. generalize (∅ : gmap string Z) as costs.
    generalize (∅ : gset (Z * Z)) as seen. intros seen costs total pairs. revert total costs seen.
    induction pairs as [|[s e] pairs IH]; intros total costs seen; simpl; [done|].
    assert (bfs st s e ≠ Err KeyError) as Hb.
    { apply bfs_loop_no_KeyError. intros x y t Hg Ht.
      by destruct (catalog_cells st x y t Hc Hk Hg Ht). }
    destruct (bfs st s e) as [[[|p path]|]|]; simpl; [done| |done|congruence].
    pose proof (score_path_no_KeyError st (p :: path) (mkLedger 0 costs seen) Hk).
    destruct (score_path st (p :: path) _); simpl; [apply IH|congruence]. }
  destruct (calculate_score st) as [sc|e]; [by destruct (score_gt _ _)|congruence].
Qed.

Lemma same_board_catalog st st' :
  same_board st st' → catalog_inventory st ∧ known_cells st →
  catalog_inventory st' ∧ known_cells st'.
Proof.
  unfold catalog_inventory, known_cells. intros (Hg & Ht & _) [Hc Hk].
  rewrite Hg, Ht. by split.
Qed.

Lemma catalog_ids_fit_inventory st : catalog_inventory st → ids_fit st.
Proof.
  unfold catalog_inventory, ids_fit. intros H. eapply Forall_impl; [exact H|].
  intros k Hk. by apply (proj1 (Forall_forall _ _) catalog_ids_fit).
Qed.

Lemma for_each_avoids (e0 : exn) (I : ChickNorrisTV → Prop) keys (body : string → M unit) :
  (∀ k s, k ∈ keys → I s →
          (∀ s', body k s ≠ Raise e0 s') ∧ (∀ s', body k s = Return tt s' → I s')) →
  ∀ st, I st → ∀ st', for_each keys body st ≠ Raise e0 st'.
Proof.
  induction keys as [|k keys IH]; intros Hb st HI st'; [done|].
  rewrite for_each_cons. destruct (Hb k st ltac:(by left) HI) as [Hok HI'].
  destruct (body k st) as [[] s1|e s1] eqn:Hk.
  - apply IH; [|by apply HI']. intros ????. apply Hb; [by right|done].
  - intros [= -> ->]. by apply (Hok st').
Qed.

Lemma backtrack_no_KeyError fuel : ∀ x y st st',
  catalog_inventory st → known_cells st → backtrack fuel x y st ≠ Raise KeyError st'.
Proof.
  induction fuel as [|fuel IH]; intros x y st st' Hc Hk; [done|].
  rewrite backtrack_unfold. cbv zeta.
  set (st1 := set_ticks (S (ticks st)) st).
  destruct (Qgtb _ _); [done|].
  destruct (bool_decide (x = height st)); [by apply evaluate_no_KeyError|].
  destruct (bool_decide (y = width st)); [by apply IH|].
  pose proof (IH x (y + 1) st1 st' Hc Hk) as H1.
  destruct (backtrack fuel x (y + 1) st1) as [[] st2|e st2] eqn:Hb1; [|done].
  apply backtrack_restores in Hb1; [|by apply catalog_ids_fit_inventory].
  destruct (same_board_catalog _ _ Hb1 (conj Hc Hk)) as [Hc2 Hk2].
  apply (for_each_avoids KeyError (λ s, same_board st2 s)); [|done].
  intros k s Hin Hs.
  destruct (same_board_catalog _ _ Hs (conj Hc2 Hk2)) as [Hcs Hks].
  assert (dict_keys (tiles s) = dict_keys (tiles st2)) as Hkeys
    by (destruct Hs as (_ & -> & _); done).
  assert (fits_cell k) as Hfit.
  { apply (proj1 (Forall_forall _ _) (catalog_ids_fit_inventory _ Hc2)), Hin. }
  split.
  - intros s'. rewrite try_tile_unfold.
    destruct (place_tile_cases x y k s)
      as [->|[->|[[Hnone _]|(a & cost & count & Hv & Hd & Hpos & Ha & ->)]]]; [done..| |].
    { rewrite <-Hkeys in Hin. apply dict_get_is_Some in Hin as [? Hin]. congruence. }
    set (s1 := set_tiles _ _).
    assert (catalog_inventory s1 ∧ known_cells s1) as [Hc1 Hk1].
    { unfold catalog_inventory, known_cells. subst s1. split.
      { simpl. by rewrite (dict_keys_set _ _ _ _ Hd). }
      intros x' y' t. rewrite the_grid_set_tiles, (the_grid_write a)
        by (eapply getitem_grid_valid; by rewrite Hv).
      simpl. rewrite (dict_keys_set _ _ _ _ Hd).
      intros Hg Ht. destruct (getitem_setitem_cases _ _ _ _ _ _ _ _ Ha Hg) as [->|Hold].
      - destruct Hfit as [-> _]. by rewrite Hkeys.
      - by apply (Hks x' y' t). }
    pose proof (IH x (y + 1) s1 s' Hc1 Hk1) as H2.
    destruct (backtrack fuel x (y + 1) s1) as [[] s2|e s2] eqn:Hb2; [|done].
    apply backtrack_restores in Hb2; [|by apply catalog_ids_fit_inventory].
    destruct (same_board_catalog _ _ Hb2 (conj Hc1 Hk1)) as [_ Hk2'].
    destruct (remove_tile_cases x y s2)
      as [->|[->|(id & a' & Hg & Hid & _ & [[Hnone ->]|(c' & n' & _ & ->)])]]; [done..| |done].
    apply Hk2', dict_get_is_Some in Hg as [? Hg]; [|done]. congruence.
  - intros s' Ht. eapply same_board_trans; [done|].
    eapply try_tile_restores; [done| |done].
    intros s1 s2 Hs1. apply backtrack_restores. unfold ids_fit. rewrite Hs1.
    destruct (place_tile_cases x y k s)
      as [->|[->|[[_ ->]|(a & cost & count & _ & Hd & _ & _ & ->)]]]; simpl;
      [by apply catalog_ids_fit_inventory..|].
    rewrite (dict_keys_set _ _ _ _ Hd). by apply catalog_ids_fit_inventory.
Qed.

Lemma solve_no_KeyError st st' :
  catalog_inventory st → known_cells st → solve st ≠ Raise KeyError st'.
Proof.
  intros Hc Hk. rewrite solve_unfold.
  pose proof (backtrack_no_KeyError (search_fuel st) 0 0 st st' Hc Hk).
  destruct (backtrack (search_fuel st) 0 0 st); congruence.
Qed.

Lemma getitem_zeros h w x y t : getitem (zeros h w) x y = Some t → t = EmptyString.
Proof.
  intros (i & j & row & _ & Hrow & Ht)%getitem_locate.
  apply lookup_replicate in Hrow as [-> _]. by apply lookup_replicate in Ht as [-> _].
Qed.

(** *** Searching a disconnected instance *)

Lemma locate_nonneg a x y i j :
  0 ≤ x → 0 ≤ y → locate a x y = Some (i, j) → i = Z.to_nat x ∧ j = Z.to_nat y.
Proof.
  unfold locate, index. intros Hx Hy H. simplify_option_eq; (done || lia).
Qed.

Lemma getitem_zeros_valid h w x y :
  0 ≤ x < h → 0 ≤ y < w →
  getitem (zeros (Z.to_nat h) (Z.to_nat w)) x y = Some EmptyString.
Proof.
  intros Hx Hy. unfold getitem, zeros. rewrite length_replicate.
  rewrite index_nonneg by lia. simpl.
  rewrite lookup_replicate_2 by lia. simpl. rewrite length_replicate.
  rewrite index_nonneg by lia. simpl. by rewrite lookup_replicate_2 by lia.
Qed.

Lemma place_tile_not_golden x y tile_id st st' :
  place_tile x y tile_id st = Return true st' → (x, y) ∉ golden_points st.
Proof.
  unfold place_tile. case_bool_decide; [done|]. simpl. by intros _.
Qed.

Global Instance unrewarded_preorder : PreOrder unrewarded.
Proof.
  split; unfold unrewarded; [by intros ?|].
  intros a b c Hab Hbc Ha. destruct (Hab Ha) as (Hb & ? & ?).
  destruct (Hbc Hb) as (? & ? & ?). split; [done|]. split; congruence.
Qed.

Lemma golden_clear_write a st x y v :
  setitem (the_grid st) x y v = Some a →
  (v = EmptyString ∨ (0 ≤ x ∧ 0 ≤ y ∧ (x, y) ∉ golden_points st)) →
  golden_clear st → golden_clear (write_grid a st).
Proof.
  intros Ha Hv Hclear p Hp.
  destruct (Hclear p Hp) as (Hp1 & Hp2 & Hvac). split; [done|]. split; [done|].
  unfold vacant in *. simpl.
  assert (grid st < length (store st))%nat
    by (eapply getitem_grid_valid; by rewrite Hvac).
  rewrite (the_grid_write a) by done.
  destruct Hv as [->|(Hx & Hy & Hng)].
  - assert (is_Some (getitem a p.1 p.2)) as [t Ht].
    { apply locate_is_Some. rewrite (locate_setitem _ _ _ _ _ _ _ Ha).
      apply locate_is_Some. by rewrite Hvac. }
    destruct (getitem_setitem_cases _ _ _ _ _ _ _ _ Ha Ht) as [->|Hold]; [done|].
    congruence.
  - rewrite (getitem_setitem_ne _ _ _ _ _ _ _ Ha); [done|].
    intros Heq. apply Hng.
    assert (is_Some (locate (the_grid st) p.1 p.2)) as [[i j] Hl]
      by (apply locate_is_Some; by rewrite Hvac).
    destruct (locate_nonneg _ _ _ _ _ Hp1 Hp2 Hl) as [-> ->].
    rewrite Hl in Heq. symmetry in Heq.
    destruct (locate_nonneg _ _ _ _ _ Hx Hy Heq) as [Hi Hj].
    assert (p = (x, y)) as <-; [|done]. destruct p as [p1 p2]. simpl in *. f_equal; lia.
Qed.

Lemma unrewarded_place x y tile_id :
  0 ≤ x ∧ 0 ≤ y → stable unrewarded (place_tile x y tile_id).
Proof.
  intros [Hx Hy] st Hd.
  destruct (place_tile_cases x y tile_id st)
    as [->|[->|[[_ ->]|(a & cost & count & _ & _ & _ & Ha & Hp)]]]; [done..|].
  pose proof (place_tile_not_golden _ _ _ _ _ Hp) as Hng. rewrite Hp. simpl.
  split; [|done]. split; [apply Hd|].
  apply (golden_clear_write a st x y tile_id Ha); [auto|apply Hd].
Qed.

Lemma unrewarded_remove x y : stable unrewarded (remove_tile x y).
Proof.
  intros st Hd.
  destruct (remove_tile_cases x y st)
    as [->|[->|(id & a & _ & _ & Ha & [[_ ->]|(cost & count & _ & ->)])]]; simpl;
    [done..| |]; (split; [|done]); (split; [apply Hd|]);
    (apply (golden_clear_write a st x y EmptyString Ha); [auto|apply Hd]).
Qed.

Lemma unrewarded_evaluate : stable unrewarded evaluate.
Proof.
  intros st Hd. rewrite evaluate_unfold.
  rewrite calculate_score_disconnected; [done|apply Hd|].
  intros p Hp. by apply Hd.
Qed.

Lemma unrewarded_solve : stable unrewarded solve.
Proof.
  apply (stable_solve unrewarded (λ x y, 0 ≤ x ∧ 0 ≤ y));
    auto using unrewarded_place, unrewarded_remove, unrewarded_evaluate.
  - intros x y [??]. lia.
  - intros x y [??]. lia.
  - by intros st.
  - lia.
Qed.

(** *** The search returns *)

Lemma getitem_in_range st x y :
  grid_shape_ok st → 0 ≤ x < height st → 0 ≤ y < width st →
  is_Some (getitem (the_grid st) x y).
Proof.
  intros (_ & Hlen & Hrows) Hx Hy. unfold getitem.
  rewrite index_nonneg by lia. simpl.
  destruct (the_grid st !! Z.to_nat x) as [row|] eqn:Hrow; simpl.
  - assert (length row = Z.to_nat (width st)) as Hw.
    { apply (proj1 (Forall_forall _ _) Hrows). by eapply list_elem_of_lookup_2. }
    rewrite index_nonneg by lia. simpl. apply lookup_lt_is_Some. lia.
  - apply lookup_ge_None in Hrow. lia.
Qed.

Lemma setitem_shape a a' x y v h w :
  setitem a x y v = Some a' →
  length a = h ∧ Forall (λ row, length row = w) a →
  length a' = h ∧ Forall (λ row, length row = w) a'.
Proof.
  rewrite setitem_locate. destruct (locate a x y) as [[i j]|]; [|done].
  intros [= <-] [Hlen Hrows]. rewrite length_insert. split; [done|].
  destruct (a !! i) as [row|] eqn:Hrow; simpl.
  - apply Forall_insert; [done|]. rewrite length_insert.
    apply (proj1 (Forall_forall _ _) Hrows). by eapply list_elem_of_lookup_2.
  - rewrite list_insert_ge; [done|]. by apply lookup_ge_None.
Qed.

Lemma calculate_score_returns st : golden_clear st → ∃ sc, calculate_score st = Ok sc.
Proof.
  intros Hclear.
  destruct (decide (2 ≤ length (golden_points st))%nat) as [Hlen|Hlen].
  - exists NegInf. apply calculate_score_disconnected; [done|].
    intros p Hp. by apply Hclear.
  - exists (Fin 0). unfold calculate_score.
    destruct (golden_points st) as [|s [|e rest]]; simpl in Hlen; [done..|lia].
Qed.

Lemma well_formed_transfer st st' :
  same_board st st' → evolves st st' → well_formed st → well_formed st'.
Proof.
  intros (Hg & Ht & Hr) [] ((Hvalid & Hlen & Hrows) & Hfit & Hk & Hclear).
  split; [|split; [|split]].
  - unfold grid_shape_ok. rewrite Hg, Hr, ev_width0, ev_height0. split; [lia|done].
  - unfold ids_fit. by rewrite Ht.
  - unfold known_cells. by rewrite Hg, Ht.
  - unfold golden_clear, vacant. by rewrite Hg, ev_golden0.
Qed.

Lemma well_formed_placed st x y tile_id a cost count :
  well_formed st → fits_cell tile_id → 0 ≤ x → 0 ≤ y → (x, y) ∉ golden_points st →
  dict_get tile_id (tiles st) = Some (cost, count) →
  setitem (the_grid st) x y tile_id = Some a →
  well_formed (set_tiles (dict_set tile_id (cost, count - 1) (tiles st)) (write_grid a st)).
Proof.
  intros ((Hvalid & Hlen & Hrows) & Hfit & Hk & Hclear) [HU _] Hx Hy Hng Hd Ha.
  destruct (setitem_shape _ _ _ _ _ _ _ Ha (conj Hlen Hrows)) as [Hlen' Hrows'].
  split; [|split; [|split]].
  - unfold grid_shape_ok. rewrite the_grid_set_tiles, (the_grid_write a) by done.
    simpl. by rewrite length_insert.
  - unfold ids_fit. simpl. by rewrite (dict_keys_set _ _ _ _ Hd).
  - intros x' y' t. rewrite the_grid_set_tiles, (the_grid_write a) by done.
    simpl. rewrite (dict_keys_set _ _ _ _ Hd). intros Hg Ht.
    destruct (getitem_setitem_cases _ _ _ _ _ _ _ _ Ha Hg) as [->|Hold].
    + rewrite HU. by eapply dict_get_Some_key.
    + by apply (Hk x' y' t).
  - apply (golden_clear_write a st x y tile_id Ha); auto.
Qed.

Lemma for_each_returns (I : ChickNorrisTV → Prop) keys (body : string → M unit) :
  (∀ k s, k ∈ keys → I s → ∃ s', body k s = Return tt s' ∧ I s') →
  ∀ st, I st → ∃ st', for_each keys body st = Return tt st'.
Proof.
  induction keys as [|k keys IH]; intros Hb st HI; [by eexists|].
  rewrite for_each_cons. destruct (Hb k st ltac:(by left) HI) as (s1 & -> & HI1).
  apply IH; [|done]. intros ????. apply Hb; [by right|done].
Qed.

Lemma backtrack_returns fuel : ∀ x y st,
  well_formed st → 0 ≤ x ≤ height st → 0 ≤ y ≤ width st →
  0 `max` calls_left st x y < Z.of_nat fuel →
  ∃ st', backtrack fuel x y st = Return tt st'.
Proof.
  induction fuel as [|fuel IH]; intros x y st Hwf Hx Hy Hf; [lia|].
  rewrite backtrack_unfold. cbv zeta.
  set (st1 := set_ticks (S (ticks st)) st).
  assert (well_formed st1) as Hwf1 by done.
  destruct (Qgtb _ _); [by eexists|].
  case_bool_decide as Hxh.
  { rewrite evaluate_unfold. destruct Hwf1 as (_ & _ & _ & Hclear).
    destruct (calculate_score_returns st1 Hclear) as [sc ->].
    destruct (score_gt sc (best_score st1)); by eexists. }
  unfold calls_left in *.
  case_bool_decide as Hyw.
  { apply IH; simpl; [done|lia..|nia]. }
  assert (0 `max` ((height st - x) * (width st + 1) - (y + 1)) < Z.of_nat fuel) as Hf' by nia.
  destruct (IH x (y + 1) st1 Hwf1 Hx ltac:(simpl; lia) Hf') as [st2 Hb1].
  pose proof (evolves_backtrack fuel x (y + 1) st1) as He1.
  rewrite Hb1 in He1 |- *. simpl in He1.
  pose proof (backtrack_restores _ _ _ _ _ (proj1 (proj2 Hwf1)) Hb1) as Hsb1.
  pose proof (well_formed_transfer _ _ Hsb1 He1 Hwf1) as Hwf2.
  apply (for_each_returns (λ s, same_board st2 s ∧ evolves st2 s)); [|done].
  intros k s Hin [Hsb He].
  pose proof (well_formed_transfer _ _ Hsb He Hwf2) as Hwfs.
  assert (evolves st s) as [] by (etrans; [apply evolves_tick|]; by etrans).
  assert (fits_cell k) as Hfit.
  { apply (proj1 (Forall_forall _ _) (proj1 (proj2 Hwf2))), Hin. }
  assert (∃ s', try_tile (backtrack fuel x (y + 1)) x y k s = Return tt s') as [s' Hs'].
  { rewrite try_tile_unfold.
    destruct (place_tile_cases x y k s)
      as [->|[Hp|[[Hnone _]|(a & cost & count & Hv & Hd & Hpos & Ha & Hp)]]].
    - by eexists.
    - exfalso. unfold place_tile in Hp.
      destruct (_ || _); [done|].
      destruct (getitem_in_range s x y) as [c Hc]; [apply Hwfs|lia..|].
      rewrite Hc in Hp. case_bool_decide; [done|].
      destruct (dict_get k (tiles s)) as [[??]|] eqn:Hd; [|done].
      case_bool_decide; [done|].
      destruct (setitem_is_Some (the_grid s) x y k) as [a Ha]; [by rewrite Hc|].
      by rewrite Ha in Hp.
    - exfalso. destruct Hsb as (_ & Ht & _). rewrite <-Ht in Hin.
      apply dict_get_is_Some in Hin as [? Hin]. congruence.
    - rewrite Hp.
      pose proof (place_tile_not_golden _ _ _ _ _ Hp) as Hng.
      pose proof (well_formed_placed s x y k a cost count Hwfs Hfit
                    ltac:(lia) ltac:(lia) Hng Hd Ha) as Hwfp.
      set (s1 := set_tiles _ _) in *.
      destruct (IH x (y + 1) s1 Hwfp) as [s2 Hb2]; [simpl; lia..| |].
      { simpl. rewrite ev_height0, ev_width0. exact Hf'. }
      rewrite Hb2.
      pose proof (backtrack_restores _ _ _ _ _ (proj1 (proj2 Hwfp)) Hb2) as Hsb2.
      destruct (remove_undoes_place x y k s a cost count s2 Hfit Hv Hd Ha Hsb2)
        as (s3 & -> & _). by eexists. }
  exists s'. split; [done|].
  assert (same_board s s') as Hss'.
  { eapply try_tile_restores; [done| |done].
    intros t1 t2 Ht1. apply backtrack_restores. unfold ids_fit. rewrite Ht1.
    destruct (place_tile_cases x y k s)
      as [->|[->|[[_ ->]|(a & cost & count & _ & Hd & _ & _ & ->)]]]; simpl;
      [apply Hwfs..|].
    rewrite (dict_keys_set _ _ _ _ Hd). apply Hwfs. }
  split; [by eapply same_board_trans|].
  etrans; [done|].
  assert (stable evolves (try_tile (backtrack fuel x (y + 1)) x y k)) as Hst
    by (apply stable_try_tile; try apply _;
        auto using evolves_place, evolves_remove, evolves_backtrack).
  specialize (Hst s). by rewrite Hs' in Hst.
Qed.

(** A well-formed solver is searched without any exception, whatever the
    clock does. *)
Lemma solve_returns st :
  well_formed st → 0 ≤ height st → 0 ≤ width st → ∃ r st', solve st = Return r st'.
Proof.
  intros Hwf Hh Hw. rewrite solve_unfold.
  destruct (backtrack_returns (search_fuel st) 0 0 st Hwf) as [st' ->]; [lia..| |by eexists _, _].
  unfold calls_left, search_fuel. nia.
Qed.

Lemma init_well_formed clk w h golden silver tls st :
  init clk w h golden silver tls = Ok st →
  (∀ p, p ∈ golden → is_valid st p.1 p.2 = true) →
  Forall fits_cell (dict_keys tls) →
  well_formed st ∧ 0 ≤ height st ∧ 0 ≤ width st.
Proof.
  unfold init. case_bool_decide; [done|]. intros [= <-] Hvalid Hfit.
  split; [|simpl; lia]. split; [|split; [|split]].
  - unfold grid_shape_ok, the_grid, zeros. simpl. rewrite length_replicate.
    split; [lia|]. split; [done|]. apply Forall_replicate. apply length_replicate.
  - done.
  - intros x y t Hg Ht. unfold the_grid in Hg. simpl in Hg. by apply getitem_zeros in Hg.
  - intros p Hp. simpl in Hp. apply (proj1 (elem_of_remove_dups _ _)) in Hp.
    specialize (Hvalid p Hp). apply bool_decide_eq_true in Hvalid. simpl in Hvalid.
    split; [lia|]. split; [lia|]. unfold vacant, the_grid. simpl.
    apply getitem_zeros_valid; lia.
Qed.

(** * The claims of the specification *)

(** C1.  On a grid where every golden point is an empty cell (the silver
    points are not even needed), [bfs] between two distinct golden points
    returns [None], and with two or more golden points [calculate_score]
    returns negative infinity.  The search keeps the golden points empty, so
    on an instance with two or more golden points, all of them cells of the
    grid, every evaluation of a complete grid gives negative infinity: the
    recorded best is never replaced, and a freshly constructed solver returns
    no solution and negative infinity (and it does return, when the
    identifiers of its inventory fit a cell). *)
Theorem distinct_anchors_never_connect :
  (∀ st,
     (∀ p, p ∈ golden_points st → vacant st p.1 p.2) →
     (∀ s e, s ∈ golden_points st → e ∈ golden_points st → s ≠ e →
             bfs st s e = Ok None) ∧
     ((2 ≤ length (golden_points st))%nat → calculate_score st = Ok NegInf)) ∧
  (∀ st,
     (2 ≤ length (golden_points st))%nat → golden_clear st →
     golden_clear (final (solve st)) ∧
     best_solution (final (solve st)) = best_solution st ∧
     best_score (final (solve st)) = best_score st) ∧
  (∀ clk w h golden silver tls st r st',
     init clk w h golden silver tls = Ok st →
     (∀ p, p ∈ golden → is_valid st p.1 p.2 = true) →
     (2 ≤ length (golden_points st))%nat →
     solve st = Return r st' →
     r = (None, NegInf)) ∧
  (∀ clk w h golden silver tls st,
     init clk w h golden silver tls = Ok st →
     (∀ p, p ∈ golden → is_valid st p.1 p.2 = true) →
     (2 ≤ length (golden_points st))%nat →
     Forall fits_cell (dict_keys tls) →
     ∃ st', solve st = Return (None, NegInf) st').
Proof.
  assert (∀ clk w h golden silver tls st r st',
            init clk w h golden silver tls = Ok st →
            (∀ p, p ∈ golden → is_valid st p.1 p.2 = true) →
            (2 ≤ length (golden_points st))%nat →
            solve st = Return r st' →
            r = (None, NegInf)) as Hinit; [|split; [|split; [|split]]].
  5: { intros clk w h golden silver tls st Hi Hvalid Hlen Hfit.
       destruct (init_well_formed _ _ _ _ _ _ _ Hi Hvalid Hfit) as (Hwf & Hh & Hw).
       destruct (solve_returns st Hwf Hh Hw) as (r & st' & Hs).
       exists st'. by rewrite <-(Hinit _ _ _ _ _ _ _ _ _ Hi Hvalid Hlen Hs). }
  4: exact Hinit.
  - intros clk w h golden silver tls st r st' Hi Hvalid Hlen Hs.
    unfold init in Hi. case_bool_decide; [done|]. injection Hi as Hst.
    assert (golden_clear st) as Hclear.
    { intros p Hp. rewrite <-Hst in Hp. simpl in Hp.
      apply (proj1 (elem_of_remove_dups _ _)) in Hp.
      specialize (Hvalid p Hp). rewrite <-Hst in Hvalid.
      apply bool_decide_eq_true in Hvalid. simpl in Hvalid.
      split; [lia|]. split; [lia|]. rewrite <-Hst. unfold vacant, the_grid. simpl.
      apply getitem_zeros_valid; lia. }
    destruct (unrewarded_solve st (conj Hlen Hclear)) as (_ & Hsol & Hsc).
    rewrite Hs in Hsol, Hsc. simpl in Hsol, Hsc.
    rewrite solve_unfold in Hs.
    destruct (backtrack (search_fuel st) 0 0 st) as [[] s1|e s1]; [|done].
    injection Hs as <- <-. rewrite Hsol, Hsc. by rewrite <-Hst.
  - intros st Hclear. split.
    + intros s e Hs _ Hne. apply bfs_vacant_start; auto.
    + intros Hlen. by apply calculate_score_disconnected.
  - intros st Hlen Hclear.
    destruct (unrewarded_solve st (conj Hlen Hclear)) as ([_ ?] & ? & ?). done.
Qed.

Lemma distinct_anchors_never_connect_witness :
  ((∀ p, p ∈ golden_points corridor → vacant corridor p.1 p.2) ∧
   golden_clear corridor ∧ (2 ≤ length (golden_points corridor))%nat) ∧
  bfs corridor (0, 0) (0, 2) = Ok None ∧
  calculate_score corridor = Ok NegInf ∧
  best_solution (final (solve corridor)) = None ∧
  best_score (final (solve corridor)) = NegInf ∧
  ∃ st', solve corridor = Return (None, NegInf) st'.
Proof.
  assert (golden_clear corridor) as Hclear.
  { intros p Hp.
    apply elem_of_cons in Hp as [->|Hp]; [by repeat split|].
    apply elem_of_cons in Hp as [->|Hp]; [by repeat split|].
    by apply elem_of_nil in Hp. }
  assert (∀ p, p ∈ golden_points corridor → vacant corridor p.1 p.2) as Hvac
    by (intros p Hp; by apply Hclear).
  assert (2 ≤ length (golden_points corridor))%nat as Hlen by (simpl; lia).
  destruct distinct_anchors_never_connect as (H1 & H2 & _ & H4).
  split; [done|]. destruct (H1 corridor Hvac) as [Hb Hs].
  split; [apply Hb; [by left|by right; left|done]|]. split; [by apply Hs|].
  destruct (H2 corridor Hlen Hclear) as (_ & ? & ?). split; [done|]. split; [done|].
  apply (H4 still_clock 3 1 [(0, 0); (0, 2)] [] [("C"%string, (1, 5))]).
  - vm_compute. reflexivity.
  - intros p Hp.
    apply elem_of_cons in Hp as [->|Hp]; [reflexivity|].
    apply elem_of_cons in Hp as [->|Hp]; [reflexivity|].
    by apply elem_of_nil in Hp.
  - exact Hlen.
  - by repeat constructor.
Defined.

(** C2.  Whenever [calculate_score] returns a finite score, that score is
    the sum, over the connecting paths computed for the pairs of golden
    points and over every coordinate of each path, of the bonus of the
    coordinate if it is a silver point, minus the accumulated tile costs:
    every silver point on a computed path adds its bonus to the positive part
    of the score, once per occurrence. *)
Theorem silver_points_on_paths_pay (st : ChickNorrisTV) (z : Z) :
  calculate_score st = Ok (Fin z) →
  ∃ paths, computed_paths st (combinations2 (golden_points st)) paths ∧
    z = Zsum (path_bonus st <$> paths) - Zsum (path_cost st <$> paths).
Proof.
  intros (paths & Hp & ->)%score_pairs_sums. exists paths. split; [done|].
  change (sum_values ∅) with 0. lia.
Qed.

Lemma silver_points_on_paths_pay_witness :
  calculate_score paved = Ok (Fin 6) ∧
  ∃ paths, computed_paths paved (combinations2 (golden_points paved)) paths ∧
    6 = Zsum (path_bonus paved <$> paths) - Zsum (path_cost paved <$> paths).
Proof.
  assert (calculate_score paved = Ok (Fin 6)) as H by (vm_compute; reflexivity).
  split; [exact H|]. exact (silver_points_on_paths_pay paved 6 H).
Defined.

(** C3, as the code has it.  The constructor accepts every inventory: no
    identifier is checked against [TILE_DIRECTIONS].  When every identifier of
    the inventory is a key of the catalog and every tile on the grid is of a
    type of the inventory (as on the empty grid of a new solver), neither the
    direction-set lookup of [bfs] nor any other dictionary lookup of the
    search fails. *)
Theorem catalog_inventory_lookups_succeed :
  (∀ clk w h golden silver tls,
     0 ≤ h → 0 ≤ w →
     ∃ st, init clk w h golden silver tls = Ok st ∧ tiles st = tls) ∧
  (∀ st s e, catalog_inventory st → known_cells st → bfs st s e ≠ Err KeyError) ∧
  (∀ st st', catalog_inventory st → known_cells st → solve st ≠ Raise KeyError st') ∧
  (∀ clk w h golden silver tls st st',
     init clk w h golden silver tls = Ok st →
     Forall (λ k, k ∈ dict_keys TILE_DIRECTIONS) (dict_keys tls) →
     solve st ≠ Raise KeyError st').
Proof.
  split; [|split; [|split]].
  - intros clk w h golden silver tls Hh Hw. unfold init.
    rewrite bool_decide_eq_false_2 by lia. by eexists.
  - intros st s e Hc Hk. apply bfs_loop_no_KeyError. intros x y t Hg Ht.
    by destruct (catalog_cells st x y t Hc Hk Hg Ht).
  - intros st st'. apply solve_no_KeyError.
  - intros clk w h golden silver tls st st' Hi Hcat.
    unfold init in Hi. case_bool_decide; [done|]. injection Hi as <-.
    apply solve_no_KeyError; [done|].
    intros x y t Hg Ht. unfold the_grid in Hg. simpl in Hg.
    by apply getitem_zeros in Hg.
Qed.

Lemma catalog_inventory_lookups_succeed_witness :
  (catalog_inventory corridor ∧ known_cells corridor) ∧
  bfs corridor (0, 0) (0, 2) ≠ Err KeyError ∧
  ∀ st', solve corridor ≠ Raise KeyError st'.
Proof.
  assert (catalog_inventory corridor ∧ known_cells corridor) as [Hc Hk].
  { split.
    - constructor; [|constructor].
      apply (bool_decide_eq_true_1 ("C"%string ∈ dict_keys TILE_DIRECTIONS)).
      vm_compute. reflexivity.
    - intros x y t Hg Ht. unfold the_grid in Hg. simpl in Hg.
      by apply getitem_zeros in Hg. }
  destruct catalog_inventory_lookups_succeed as (_ & H2 & H3 & _).
  split; [by split|]. split; [by apply H2|]. intros st'. by apply H3.
Defined.

(** C3, as the specification states it, fails: a solver is constructed with
    the tile type [X], which the catalog does not have, and [solve] runs to
    the end and returns a solution. *)
Lemma unknown_identifier_is_accepted :
  ("X"%string ∉ dict_keys TILE_DIRECTIONS) ∧
  init still_clock 3 1 [] [] [("X"%string, (1, 1))] = Ok rogue ∧
  ∃ st', solve rogue = Return (Some 1%nat, Fin 0) st'.
Proof.
  split; [|split].
  - apply (bool_decide_eq_false_1 ("X"%string ∈ dict_keys TILE_DIRECTIONS)).
    vm_compute. reflexivity.
  - vm_compute. reflexivity.
  - eexists. vm_compute. reflexivity.
Qed.

(** C4.  Under a clock that never runs backwards, once a reading exceeds the
    budget every call of [backtrack] made from then on in the same run
    returns at once: it returns normally, and the solver it leaves differs
    from the one it found only by the clock reading it took, so no tile was
    placed and no grid evaluated.  If the budget is already exceeded at the
    first call, [solve] returns the recorded best as it stood, which for a
    freshly constructed solver is no solution and negative infinity.  What
    [solve] returns is always the best solution and score recorded in the
    solver it leaves.  And whatever the clock does, the search of a solver
    constructed with golden points inside the grid and identifiers that fit
    a cell raises no error: [solve] returns. *)
Theorem deadline_stops_search :
  (∀ st k,
     monotone (clock st) → expired st k →
     (∀ st' fuel x y,
        same_run st st' → (k ≤ ticks st')%nat →
        backtrack (S fuel) x y st' = Return tt (set_ticks (S (ticks st')) st')) ∧
     (k = ticks st →
        solve st = Return (best_solution st, best_score st) (set_ticks (S (ticks st)) st))) ∧
  (∀ st r st', solve st = Return r st' → r = (best_solution st', best_score st')) ∧
  (∀ clk w h golden silver tls st,
     init clk w h golden silver tls = Ok st →
     (∀ p, p ∈ golden → is_valid st p.1 p.2 = true) →
     Forall fits_cell (dict_keys tls) →
     ∃ r st', solve st = Return r st').
Proof.
  split; [|split].
  - intros st k Hm He. split.
    + intros st' fuel x y Hrun Hk. apply backtrack_expired. by eapply expired_later.
    + intros ->. rewrite solve_unfold. unfold search_fuel.
      by rewrite backtrack_expired.
  - intros st r st'. rewrite solve_unfold.
    destruct (backtrack (search_fuel st) 0 0 st) as [[] s1|e s1]; [|done].
    by intros [= <- <-].
  - intros clk w h golden silver tls st Hi Hvalid Hfit.
    destruct (init_well_formed _ _ _ _ _ _ _ Hi Hvalid Hfit) as (Hwf & Hh & Hw).
    by apply solve_returns.
Qed.

Lemma late_clock_monotone : monotone late_clock.
Proof.
  intros i j Hij. unfold late_clock.
  destruct i, j; simpl; try done; lia.
Qed.

Lemma deadline_stops_search_witness :
  (monotone (clock late_corridor) ∧ expired late_corridor 1) ∧
  (∀ st' fuel x y,
     same_run late_corridor st' → (1 ≤ ticks st')%nat →
     backtrack (S fuel) x y st' = Return tt (set_ticks (S (ticks st')) st')) ∧
  solve late_corridor = Return (None, NegInf) (set_ticks 2 late_corridor) ∧
  ∃ r st', solve short_run = Return r st'.
Proof.
  assert (monotone (clock late_corridor) ∧ expired late_corridor 1) as [Hm He]
    by (split; [exact late_clock_monotone|reflexivity]).
  split; [by split|].
  destruct deadline_stops_search as (H1 & _ & H3).
  destruct (H1 late_corridor 1%nat Hm He) as [Ha Hb].
  split; [exact Ha|]. split; [exact (Hb eq_refl)|].
  apply (H3 mid_clock 2 1 [(0, 0)] [] [("C"%string, (1, 5))]).
  - vm_compute. reflexivity.
  - intros p Hp. apply elem_of_cons in Hp as [->|Hp]; [reflexivity|].
    by apply elem_of_nil in Hp.
  - by repeat constructor.
Defined.

(** C5.  The evaluation of a fully decided grid replaces the recorded best
    exactly when the score of the grid is strictly greater than the recorded
    best score, and then the new best solution is a newly allocated array
    holding the contents the grid has at that moment; otherwise nothing
    changes.  Over any stretch of the search the recorded best is either kept
    or replaced by a newer array with a strictly greater score; every array
    other than the live grid keeps its contents, so a recorded best solution
    is never altered by later placements and removals; and the best solution
    is never the live grid itself.  Placing and removing tiles leave the
    recorded best untouched. *)
Theorem best_solution_is_a_snapshot :
  (∀ st st',
     evaluate st = Return tt st' →
     ∃ sc, calculate_score st = Ok sc ∧
       if score_gt sc (best_score st)
       then best_score st' = sc ∧ best_solution st' = Some (length (store st)) ∧
            store st' = store st ++ [the_grid st] ∧ grid st' = grid st
       else st' = st) ∧
  (∀ fuel x y st,
     let st' := final (backtrack fuel x y st) in
     ((best_solution st' = best_solution st ∧ best_score st' = best_score st) ∨
      (score_gt (best_score st') (best_score st) = true ∧
       ∃ r, best_solution st' = Some r ∧
            (length (store st) ≤ r < length (store st'))%nat)) ∧
     (∀ r a, r ≠ grid st → store st !! r = Some a → store st' !! r = Some a) ∧
     ((grid st < length (store st))%nat → best_solution st ≠ Some (grid st) →
      best_solution st' ≠ Some (grid st'))) ∧
  (∀ x y tile_id st,
     best_solution (final (place_tile x y tile_id st)) = best_solution st ∧
     best_score (final (place_tile x y tile_id st)) = best_score st) ∧
  (∀ x y st,
     best_solution (final (remove_tile x y st)) = best_solution st ∧
     best_score (final (remove_tile x y st)) = best_score st).
Proof.
  split; [|split; [|split]].
  - intros st st'. rewrite evaluate_unfold.
    destruct (calculate_score st) as [sc|e]; [|done]. intros H. exists sc.
    split; [done|]. by destruct (score_gt sc (best_score st)); injection H as <-.
  - intros fuel x y st st'. destruct (evolves_backtrack fuel x y st).
    split; [done|]. split; [done|]. intros Hvalid Hne. fold st' in ev_grid0, ev_best0.
    rewrite ev_grid0.
    destruct ev_best0 as [[-> _]|[_ (r & -> & Hr)]]; [done|]. intros [= ->]. lia.
  - apply place_tile_keeps_best.
  - apply remove_tile_keeps_best.
Qed.

Lemma best_solution_is_a_snapshot_witness :
  ∃ st', evaluate short_run = Return tt st' ∧
    ∃ sc, calculate_score short_run = Ok sc ∧
      if score_gt sc (best_score short_run)
      then best_score st' = sc ∧ best_solution st' = Some (length (store short_run)) ∧
           store st' = store short_run ++ [the_grid short_run] ∧ grid st' = grid short_run
      else st' = short_run.
Proof.
  destruct (evaluate short_run) as [[] st'|e st'] eqn:He.
  - exists st'. split; [done|]. exact (proj1 best_solution_is_a_snapshot short_run st' He).
  - vm_compute in He. discriminate He.
Defined.

(** C6.  [place_tile x y tile_id] returns [False] and leaves the solver
    (grid, every inventory entry, everything else) exactly as it was whenever
    [(x, y)] is a golden point, or a silver point, or a cell that already
    holds a tile, or a cell of the grid while [tile_id] has no unit left.
    The rejection is the value [Return false], never a [Raise]. *)
Theorem place_tile_rejects (st : ChickNorrisTV) (x y : Z) (tile_id : string) :
  (x, y) ∈ golden_points st ∨ is_Some (silver_points st !! (x, y)) ∨
    occupied st x y ∨ (in_grid st x y ∧ exhausted st tile_id) →
  place_tile x y tile_id st = Return false st.
Proof.
  unfold place_tile. intros H.
  destruct (bool_decide ((x, y) ∈ golden_points st)) eqn:Hg; [done|].
  destruct (bool_decide (is_Some (silver_points st !! (x, y)))) eqn:Hs; [done|].
  apply bool_decide_eq_false in Hg, Hs. simpl.
  destruct H as [?|[?|[(c & -> & Hc)|[[c Hc] (cost & count & Hd & Hle)]]]]; [done..| |].
  - by rewrite bool_decide_eq_true_2.
  - rewrite Hc, Hd. case_bool_decide; [done|]. by rewrite bool_decide_eq_true_2.
Qed.

Lemma place_tile_rejects_witness :
  (in_grid corridor 0 1 ∧ exhausted (set_tiles [("C"%string, (1, 0))] corridor) "C") ∧
  place_tile 0 1 "C" (set_tiles [("C"%string, (1, 0))] corridor)
  = Return false (set_tiles [("C"%string, (1, 0))] corridor).
Proof.
  assert (in_grid corridor 0 1 ∧ exhausted (set_tiles [("C"%string, (1, 0))] corridor) "C") as H.
  { split; [by eexists | by exists 1, 0]. }
  split; [exact H|]. apply place_tile_rejects. right; right; right. exact H.
Defined.

(** C7.  Round trip: on an empty cell that is neither golden nor silver, with
    a tile identifier the cell can hold and at least one unit of it left,
    [place_tile] succeeds, the following [remove_tile] at the same cell
    succeeds, and afterwards the inventory is the one before the placement
    (so the count of the tile type is the old one) and the grid has its old
    contents (so the cell is empty).  [remove_tile] on an empty cell returns
    the solver unchanged. *)
Theorem place_remove_round_trip (st : ChickNorrisTV) (x y : Z) (tile_id : string)
    (cost count : Z) :
  fits_cell tile_id →
  (x, y) ∉ golden_points st →
  silver_points st !! (x, y) = None →
  vacant st x y →
  dict_get tile_id (tiles st) = Some (cost, count) →
  0 < count →
  (∃ st1 st2,
      place_tile x y tile_id st = Return true st1 ∧
      dict_get tile_id (tiles st1) = Some (cost, count - 1) ∧
      remove_tile x y st1 = Return tt st2 ∧
      tiles st2 = tiles st ∧
      dict_get tile_id (tiles st2) = Some (cost, count) ∧
      the_grid st2 = the_grid st ∧
      vacant st2 x y) ∧
  remove_tile x y st = Return tt st.
Proof.
  intros [HU Hne] Hg Hs Hv Hd Hpos. unfold vacant in *.
  assert (grid st < length (store st))%nat as Hvalid
    by (eapply getitem_grid_valid; eauto).
  split; [|unfold remove_tile; by rewrite Hv].
  destruct (setitem_is_Some _ _ _ tile_id (mk_is_Some _ _ Hv)) as [a Ha].
  eexists _, _. split; [|split; [|split; [|split; [|split; [|split]]]]].
  - unfold place_tile. rewrite bool_decide_eq_false_2 by done.
    rewrite bool_decide_eq_false_2 by (rewrite Hs; by intros [? ?]). simpl.
    rewrite Hv, Hd, Ha. rewrite bool_decide_eq_false_2 by naive_solver.
    rewrite bool_decide_eq_false_2 by lia. done.
  - simpl. apply dict_get_set_eq.
  - unfold remove_tile.
    rewrite the_grid_set_tiles, (the_grid_write a) by done.
    rewrite (getitem_setitem_eq _ _ _ _ _ Ha), HU.
    rewrite bool_decide_eq_true_2 by done.
    rewrite (setitem_setitem _ _ _ _ _ _ Ha).
    rewrite (setitem_id _ _ _ _ Hv U2_empty). simpl.
    rewrite dict_get_set_eq. done.
  - simpl. rewrite dict_set_set. apply dict_set_id.
    rewrite Hd. do 2 f_equal. lia.
  - simpl. rewrite dict_set_set, dict_get_set_eq. do 2 f_equal. lia.
  - unfold the_grid. simpl. rewrite list_insert_insert_eq.
    rewrite list_lookup_insert_eq by done. done.
  - unfold the_grid. simpl. rewrite list_insert_insert_eq.
    rewrite list_lookup_insert_eq by done. done.
Qed.

Lemma place_remove_round_trip_witness :
  ∃ st1 st2,
    place_tile 0 1 "C" corridor = Return true st1 ∧
    dict_get "C" (tiles st1) = Some (1, 4) ∧
    remove_tile 0 1 st1 = Return tt st2 ∧
    tiles st2 = tiles corridor ∧
    dict_get "C" (tiles st2) = Some (1, 5) ∧
    the_grid st2 = the_grid corridor ∧
    vacant st2 0 1.
Proof.
  refine (proj1 (place_remove_round_trip corridor 0 1 "C" 1 5 _ _ _ _ _ _)).
  - by vm_compute.
  - by intros [[=]|[[=]|?%elem_of_nil]%elem_of_cons]%elem_of_cons.
  - reflexivity.
  - reflexivity.
  - reflexivity.
  - lia.
Defined.

(** C8.  One round of the tile loop of [backtrack] (place, recurse, remove),
    when it returns, leaves the grid and the inventory as it found them, so
    the next tile choice starts from the same board.  No remaining count is
    negative at any time: if none is negative when [solve] starts, none is in
    any value [self.tiles] takes during the search nor in the end, however
    the search ends.  When [solve] returns, with or without the deadline
    having cut the search short, the grid holds what it held at the start and
    the inventory is the initial one; for a freshly constructed solver the
    grid is then entirely empty, and with golden points inside the grid
    [solve] does return.  The identifiers of the inventory are taken to be
    ones a grid cell can hold, as all catalog identifiers are. *)
Theorem search_undoes_every_placement :
  (∀ fuel x y tile_id st st',
     ids_fit st → tile_id ∈ dict_keys (tiles st) →
     try_tile (backtrack fuel x (y + 1)) x y tile_id st = Return tt st' →
     the_grid st' = the_grid st ∧ tiles st' = tiles st) ∧
  (∀ st, never_negative st → never_negative (final (solve st))) ∧
  (∀ st r st',
     ids_fit st → solve st = Return r st' →
     the_grid st' = the_grid st ∧ tiles st' = tiles st) ∧
  (∀ clk w h golden silver tls st r st',
     init clk w h golden silver tls = Ok st →
     Forall fits_cell (dict_keys tls) →
     solve st = Return r st' →
     the_grid st' = zeros (Z.to_nat h) (Z.to_nat w) ∧ tiles st' = tls) ∧
  (∀ clk w h golden silver tls st,
     init clk w h golden silver tls = Ok st →
     Forall fits_cell (dict_keys tls) →
     (∀ p, p ∈ golden → is_valid st p.1 p.2 = true) →
     ∃ r st', solve st = Return r st' ∧
       the_grid st' = zeros (Z.to_nat h) (Z.to_nat w) ∧ tiles st' = tls).
Proof.
  assert (∀ clk w h golden silver tls st r st',
            init clk w h golden silver tls = Ok st →
            Forall fits_cell (dict_keys tls) →
            solve st = Return r st' →
            the_grid st' = zeros (Z.to_nat h) (Z.to_nat w) ∧ tiles st' = tls) as Hinit.
  { intros clk w h golden silver tls st r st' Hi Hfit Hs.
    unfold init in Hi. case_bool_decide; [done|]. injection Hi as <-.
    apply solve_restores in Hs; [|exact Hfit]. by destruct Hs as (? & ? & _). }
  split; [|split; [|split; [|split]]].
  - intros fuel x y tile_id st st' Hfit Hin Ht.
    assert (same_board st st') as (? & ? & _); [|done].
    eapply try_tile_restores; [| |done].
    + by apply (proj1 (Forall_forall _ _) Hfit).
    + intros s s' Hs. apply backtrack_restores. unfold ids_fit. rewrite Hs.
      destruct (place_tile_cases x y tile_id st)
        as [->|[->|[[_ ->]|(a & cost & count & _ & Hd & _ & _ & ->)]]]; simpl; [done..|].
      by rewrite (dict_keys_set _ _ _ _ Hd).
  - intros st. apply never_negative_solve.
  - intros st r st' Hfit Hs. by destruct (solve_restores _ _ _ Hfit Hs) as (? & ? & _).
  - exact Hinit.
  - intros clk w h golden silver tls st Hi Hfit Hvalid.
    destruct (init_well_formed _ _ _ _ _ _ _ Hi Hvalid Hfit) as (Hwf & Hh & Hw).
    destruct (solve_returns st Hwf Hh Hw) as (r & st' & Hs).
    exists r, st'. split; [done|]. by eapply Hinit.
Qed.

Lemma search_undoes_every_placement_witness :
  (ids_fit short_run ∧ never_negative short_run) ∧
  never_negative (final (solve short_run)) ∧
  ∃ r st', solve short_run = Return r st' ∧
    the_grid st' = the_grid short_run ∧ tiles st' = tiles short_run.
Proof.
  assert (ids_fit short_run ∧ never_negative short_run) as [Hfit Hnn].
  { split; [by repeat constructor|]. split; [by repeat constructor|constructor]. }
  destruct search_undoes_every_placement as (_ & H2 & H3 & _ & _).
  split; [by split|]. split; [by apply H2|].
  destruct (solve short_run) as [r st'|e st'] eqn:Hs.
  - exists r, st'. split; [done|]. by apply (H3 short_run r st').
  - vm_compute in Hs. discriminate Hs.
Defined.

(** C9.  [calculate_score] equals the variant without the [visited_tiles]
    set on every solver.  The scoring loop charges a path cell by cell: over
    any list of coordinates, repeated ones included, the cost ledger grows by
    the tile cost of every occurrence; and the costs of all computed paths
    are summed path by path, so a coordinate on several paths is charged on
    each of them. *)
Theorem visited_tiles_is_dead_bookkeeping :
  (∀ st, calculate_score st = calculate_score_plain st) ∧
  (∀ st path l l',
     score_path st path l = Ok l' →
     sum_values (tile_costs l') = sum_values (tile_costs l) + path_cost st path) ∧
  (∀ st pairs total costs seen z,
     score_pairs st pairs total costs seen = Ok (Fin z) →
     ∃ paths, computed_paths st pairs paths ∧
       z = (total + Zsum (path_bonus st <$> paths))
           - (sum_values costs + Zsum (path_cost st <$> paths))).
Proof.
  split; [|split].
  - intros st. apply score_pairs_forget.
  - intros st path l l' H. by apply score_path_sums in H as [_ ?].
  - intros st pairs. apply score_pairs_sums.
Qed.

Lemma visited_tiles_is_dead_bookkeeping_witness :
  calculate_score paved = calculate_score_plain paved ∧
  (∃ l', score_path paved [(0, 1); (0, 1)] (mkLedger 0 ∅ ∅) = Ok l' ∧
     sum_values (tile_costs l')
     = sum_values (tile_costs (mkLedger 0 ∅ ∅)) + path_cost paved [(0, 1); (0, 1)]) ∧
  ∃ paths, computed_paths paved [((0, 0), (0, 2)); ((0, 0), (0, 2))] paths ∧
    12 = (0 + Zsum (path_bonus paved <$> paths))
        - (sum_values ∅ + Zsum (path_cost paved <$> paths)).
Proof.
  destruct visited_tiles_is_dead_bookkeeping as (H1 & H2 & H3).
  split; [apply H1|]. split.
  - destruct (score_path paved [(0, 1); (0, 1)] (mkLedger 0 ∅ ∅)) as [l'|] eqn:Hp.
    + exists l'. split; [done|]. by apply (H2 paved [(0, 1); (0, 1)] (mkLedger 0 ∅ ∅)).
    + vm_compute in Hp. discriminate Hp.
  - apply (H3 paved _ 0 ∅ ∅ 12). vm_compute. reflexivity.
Defined.

(** C10.  A path that [bfs] returns is a way from the start to the end
    coordinate that lists the cells left on the way: it begins with the start
    (when it is not empty), never contains the end coordinate, and is empty
    exactly when start and end coincide.  [bfs s s] is the empty list on
    every grid, and the scoring loop treats that empty list like a missing
    path: a pair with equal endpoints makes the score negative infinity. *)
Theorem bfs_path_stops_before_end :
  (∀ st s e path,
     bfs st s e = Ok (Some path) →
     walk st s path e ∧ (e ∉ path) ∧ ((path = []) ↔ (s = e)) ∧
     (∀ p rest, path = p :: rest → p = s)) ∧
  (∀ st s, bfs st s s = Ok (Some [])) ∧
  (∀ st s rest total costs seen,
     score_pairs st ((s, s) :: rest) total costs seen = Ok NegInf).
Proof.
  split; [|split].
  - intros st s e path Hb. pose proof (bfs_walk _ _ _ _ Hb) as [Hw Hn].
    split; [done|]. split; [done|]. split; [split|].
    + intros ->. by destruct (walk_first _ _ _ _ Hw) as [[_ ->]|[? [=]]].
    + intros <-. rewrite bfs_same_endpoints in Hb. congruence.
    + intros p rest ->. by destruct (walk_first _ _ _ _ Hw) as [[[=] _]|[? [= -> _]]].
  - apply bfs_same_endpoints.
  - intros st s rest total costs seen. simpl. by rewrite bfs_same_endpoints.
Qed.

Lemma bfs_path_stops_before_end_witness :
  bfs paved (0, 0) (0, 2) = Ok (Some [(0, 0); (0, 1)]) ∧
  walk paved (0, 0) [(0, 0); (0, 1)] (0, 2) ∧ ((0, 2) ∉ [(0, 0); (0, 1)]) ∧
  (([(0, 0); (0, 1)] = []) ↔ ((0, 0) = (0, 2))) ∧
  (∀ p rest, [(0, 0); (0, 1)] = p :: rest → p = (0, 0)).
Proof.
  assert (bfs paved (0, 0) (0, 2) = Ok (Some [(0, 0); (0, 1)])) as H
    by (vm_compute; reflexivity).
  split; [exact H|].
  exact (proj1 bfs_path_stops_before_end paved (0, 0) (0, 2) _ H).
Defined.

(** * Further properties of the code *)

Set Warnings "-clear-no-such-hyp".

(** ** Path finding: completeness and shortest paths *)

Lemma walk_snoc_step st s path p q :
  walk st s path p → step st p q → walk st s (path ++ [p]) q.
Proof.
  intros Hw (t & dirs & d & Hg & Ht & Hd & Hin & Hv & ->). by eapply walk_step.
Qed.

Lemma walk_inv st s path c :
  walk st s path c →
  (path = [] ∧ c = s) ∨
  (∃ path' p, path = path' ++ [p] ∧ walk st s path' p ∧ step st p c).
Proof.
  destruct 1 as [|path p t dirs d Hw Hg Ht Hd Hin Hv]; [by left|].
  right. exists path, p. split; [done|]. split; [done|].
  by exists t, dirs, d.
Qed.

Lemma elem_of_enqueue st x y path visited dirs queue q :
  q ∈ enqueue st x y path visited dirs queue ↔
  q ∈ queue ∨
  (∃ d, d ∈ dirs ∧ is_valid st (x + d.1) (y + d.2) = true ∧
        ((x + d.1, y + d.2) ∉ visited) ∧ q = ((x + d.1, y + d.2), path ++ [(x, y)])).
Proof.
  unfold enqueue. revert queue.
  induction dirs as [|d dirs IH]; intros queue; simpl.
  { split; [by left|]. intros [?|(d & Hd & _)]; [done|]. by apply elem_of_nil in Hd. }
  rewrite IH. clear IH.
  destruct (is_valid st (x + d.1) (y + d.2) &&
            bool_decide ((x + d.1, y + d.2) ∉ visited)) eqn:Hc.
  - apply andb_true_iff in Hc as [Hv Hn]. apply bool_decide_eq_true in Hn.
    rewrite elem_of_app, list_elem_of_singleton. split.
    + intros [[?| ->]|(d' & ? & ? & ? & ->)].
      * by left.
      * right. exists d. split; [by left|done].
      * right. exists d'. split; [by right|done].
    + intros [?|(d' & Hd' & ? & ? & ->)]; [by left; left|].
      apply elem_of_cons in Hd' as [->|?]; [by left; right|].
      right. by exists d'.
  - split.
    + intros [?|(d' & ? & ? & ? & ->)]; [by left|]. right. exists d'.
      split; [by right|done].
    + intros [?|(d' & Hd' & Hv' & Hn' & ->)]; [by left|].
      apply elem_of_cons in Hd' as [->|?]; [|right; by exists d'].
      exfalso. rewrite Hv' in Hc. simpl in Hc. by apply bool_decide_eq_false in Hc.
Qed.

Lemma elem_of_waiting queue c : c ∈ waiting queue ↔ ∃ p, (c, p) ∈ queue.
Proof.
  unfold waiting. rewrite list_elem_of_fmap. split.
  - intros ([c' p] & -> & ?). by exists p.
  - intros [p ?]. by exists (c, p).
Qed.

Lemma waiting_enqueue st x y path visited dirs queue c :
  c ∈ waiting queue → c ∈ waiting (enqueue st x y path visited dirs queue).
Proof.
  rewrite !elem_of_waiting. intros [p ?]. exists p. apply elem_of_enqueue. by left.
Qed.

(** When the loop gives up, the target cannot be reached: the visited cells
    are closed under [step] and the start is among them or still waiting. *)
Lemma bfs_loop_complete st s e fuel : ∀ queue visited,
  e ∉ visited →
  (∀ c q, c ∈ visited → step st c q → q ∈ visited ∨ q ∈ waiting queue) →
  s ∈ visited ∨ s ∈ waiting queue →
  bfs_loop fuel st e queue visited = Ok None →
  ∀ path, ¬ walk st s path e.
Proof.
  induction fuel as [|fuel IH]; intros queue visited He Hcl Hs; simpl; [done|].
  destruct queue as [|[[x y] p] queue].
  { intros _ path Hw. apply He.
    assert (∀ path c, walk st s path c → c ∈ visited) as Hall; [|by eapply Hall].
    clear path Hw. intros path c Hw.
    induction Hw as [|path c t dirs d Hw IHw Hg Ht Hd Hin Hv].
    - destruct Hs as [?|Hs]; [done|]. by apply elem_of_nil in Hs.
    - destruct (Hcl c (c.1 + d.1, c.2 + d.2) IHw) as [?|Hq]; [|done|].
      + by exists t, dirs, d.
      + by apply elem_of_nil in Hq. }
  assert (∀ q, q ∈ waiting (((x, y), p) :: queue) → q = (x, y) ∨ q ∈ waiting queue) as Hhd.
  { intros q. unfold waiting. rewrite fmap_cons. intros [->|?]%elem_of_cons; auto. }
  case_bool_decide as Hxe; [done|].
  case_bool_decide as Hvis.
  { apply IH; [done| |].
    - intros c q Hc Hst. destruct (Hcl c q Hc Hst) as [?|[->|?]%Hhd]; auto.
    - destruct Hs as [?|[->|?]%Hhd]; auto. }
  assert (e ∉ visited ∪ {[(x, y)]}) as He'.
  { intros [?|?%elem_of_singleton]%elem_of_union; [done|]. by subst e. }
  assert (∀ q queue', (∀ c, c ∈ waiting queue → c ∈ waiting queue') →
            q ∈ visited ∨ q ∈ waiting (((x, y), p) :: queue) →
            q ∈ visited ∪ {[(x, y)]} ∨ q ∈ waiting queue') as Hkeep.
  { intros q queue' Hsub [?|[->|?]%Hhd].
    - left. apply elem_of_union. by left.
    - left. apply elem_of_union. right. by apply elem_of_singleton.
    - right. by apply Hsub. }
  destruct (getitem (the_grid st) x y) as [t|] eqn:Hg; [|done].
  case_bool_decide as Ht.
  - destruct (dict_get t TILE_DIRECTIONS) as [dirs|] eqn:Hd; [|done].
    apply IH; [done| |].
    + intros c q [Hc|Hc%elem_of_singleton]%elem_of_union Hst.
      * apply Hkeep; [intros ?; apply waiting_enqueue|by apply (Hcl c)].
      * subst c. destruct Hst as (t' & dirs' & d & Hg' & _ & Hd' & Hin & Hv & ->).
        simpl in *. rewrite Hg in Hg'. injection Hg' as <-.
        rewrite Hd in Hd'. injection Hd' as <-.
        destruct (decide ((x + d.1, y + d.2) ∈ visited ∪ {[(x, y)]})) as [?|Hn]; [by left|].
        right. apply elem_of_waiting. exists (p ++ [(x, y)]).
        apply elem_of_enqueue. right. by exists d.
    + apply Hkeep; [intros ?; apply waiting_enqueue|done].
  - apply IH; [done| |].
    + intros c q [Hc|Hc%elem_of_singleton]%elem_of_union Hst.
      * apply Hkeep; [done|by apply (Hcl c)].
      * subst c. destruct Hst as (t' & dirs' & d & Hg' & Ht' & _).
        simpl in *. rewrite Hg in Hg'. injection Hg' as <-. done.
    + by apply Hkeep.
Qed.

Lemma bfs_None_unreachable st s e :
  bfs st s e = Ok None → ∀ path, ¬ walk st s path e.
Proof.
  apply bfs_loop_complete.
  - apply not_elem_of_empty.
  - intros c q Hc. by apply not_elem_of_empty in Hc.
  - right. apply elem_of_waiting. exists []. by left.
Qed.

Lemma enqueue_app st x y path visited dirs queue :
  ∃ news, enqueue st x y path visited dirs queue = queue ++ news ∧
          Forall (λ q, q.2 = path ++ [(x, y)]) news.
Proof.
  unfold enqueue. revert queue.
  induction dirs as [|d dirs IH]; intros queue; simpl.
  { exists []. by rewrite app_nil_r. }
  destruct (_ && _).
  - destruct (IH (queue ++ [((x + d.1, y + d.2), path ++ [(x, y)])])) as (news & -> & Hn).
    eexists (_ :: news). rewrite <-app_assoc. split; [done|]. by constructor.
  - apply IH.
Qed.

Lemma layered_app rest news n :
  layered rest →
  Forall (λ a, (n ≤ length a.2 ≤ n + 1)%nat) rest →
  Forall (λ b, length b.2 = (n + 1)%nat) news →
  layered (rest ++ news).
Proof.
  intros Hl Hr Hn. induction rest as [|a rest IH]; simpl.
  - induction Hn as [|b news Hb Hn IHn]; simpl; [done|]. split; [|done].
    eapply Forall_impl; [exact Hn|]. intros c Hc. simpl in *. lia.
  - destruct Hl as [Ha Hl]. apply Forall_cons in Hr as [Han Hr].
    split; [|by apply IH]. apply Forall_app. split; [done|].
    eapply Forall_impl; [exact Hn|]. intros c Hc. simpl in *. lia.
Qed.

(** The first path with which the target leaves the queue is no longer than
    any way from the start to the target.  [l] gives, for a visited cell, the
    length of the path it was visited with. *)
Lemma bfs_loop_shortest st s e fuel : ∀ queue visited (l : Z * Z → nat) path,
  layered queue →
  (∀ c q, c ∈ visited → q ∈ queue → (l c ≤ length q.2)%nat) →
  (∀ c q, c ∈ visited → step st c q →
          (q ∈ visited ∧ (l q ≤ l c + 1)%nat) ∨
          (∃ p, (q, p) ∈ queue ∧ (length p ≤ l c + 1)%nat)) →
  ((s ∈ visited ∧ l s = 0%nat) ∨ (s, []) ∈ queue) →
  e ∉ visited →
  bfs_loop fuel st e queue visited = Ok (Some path) →
  ∀ path', walk st s path' e → (length path ≤ length path')%nat.
Proof.
  induction fuel as [|fuel IH]; intros queue visited l path Hlay Hlow Hcl Hs He; simpl; [done|].
  destruct queue as [|[[x y] p] queue]; [done|].
  destruct Hlay as [Hhead Hlay].
  assert (∀ q, q ∈ ((x, y), p) :: queue → (length p ≤ length q.2)%nat) as Hmin.
  { intros q [->|Hq]%elem_of_cons; [done|].
    apply (proj1 (Forall_forall _ _) Hhead) in Hq. simpl in Hq. lia. }
  case_bool_decide as Hxe.
  { intros [= <-] path' Hw. subst e.
    assert (∀ path' c, walk st s path' c →
              (c ∈ visited ∧ (l c ≤ length path')%nat) ∨ (length p ≤ length path')%nat) as Hall.
    { clear path' Hw. intros path' c Hw.
      induction Hw as [|path' c t dirs d Hw IHw Hg Ht Hd Hin Hv].
      - destruct Hs as [[? ->]|Hs]; [by left|]. right. by apply (Hmin _ Hs).
      - rewrite length_app. simpl. destruct IHw as [[Hc Hlc]|?]; [|right; lia].
        destruct (Hcl c (c.1 + d.1, c.2 + d.2) Hc) as [[? ?]|(p' & Hp' & ?)].
        + by exists t, dirs, d.
        + left. split; [done|lia].
        + right. apply Hmin in Hp'. simpl in Hp'. lia. }
    destruct (Hall path' (x, y) Hw) as [[? _]|?]; done. }
  case_bool_decide as Hvis.
  { apply (IH queue visited l); [done| | | |done].
    - intros c q Hc Hq. apply Hlow; [done|by right].
    - intros c q Hc Hst. destruct (Hcl c q Hc Hst) as [?|(p' & [[= -> ->]|Hp']%elem_of_cons & Hlen)];
        [by left| |right; by exists p'].
      left. split; [done|]. etrans; [|exact Hlen].
      apply (Hlow (x, y) ((x, y), p)); [done|by left].
    - destruct Hs as [?|[[= -> <-]|?]%elem_of_cons]; [by left| |by right].
      left. split; [done|].
      pose proof (Hlow (x, y) ((x, y), []) Hvis ltac:(by left)) as Hl0. simpl in Hl0. lia. }
  set (l' := λ c, if decide (c = (x, y)) then length p else l c).
  assert (∀ c, c ∈ visited → l' c = l c) as Hl'old.
  { intros c Hc. unfold l'. case_decide; [by subst c|done]. }
  assert (l' (x, y) = length p) as Hl'new by (unfold l'; by rewrite decide_True).
  assert (e ∉ visited ∪ {[(x, y)]}) as He'.
  { intros [?|?%elem_of_singleton]%elem_of_union; [done|]. by subst e. }
  assert (∀ c, c ∈ visited → c ∈ visited ∪ {[(x, y)]}) as Hin_old
    by (intros c ?; apply elem_of_union; by left).
  assert ((x, y) ∈ visited ∪ {[(x, y)]}) as Hin_new
    by (apply elem_of_union; right; by apply elem_of_singleton).
  assert (∀ c, c ∈ visited → (l c ≤ length p)%nat) as Hlp.
  { intros c Hc. apply (Hlow c ((x, y), p)); [done|by left]. }
  assert (∀ c, c ∈ visited ∪ {[(x, y)]} → (l' c ≤ length p)%nat) as Hl'p.
  { intros c [Hc|Hc%elem_of_singleton]%elem_of_union.
    - rewrite Hl'old by done. by apply Hlp.
    - subst c. by rewrite Hl'new. }
  (* facts shared by the two continuations of the loop *)
  assert (∀ queue' : list ((Z * Z) * list (Z * Z)),
            (∀ q, q ∈ queue → q ∈ queue') →
            ∀ c q, c ∈ visited → step st c q →
              (q ∈ visited ∪ {[(x, y)]} ∧ (l' q ≤ l' c + 1)%nat) ∨
              (∃ p', (q, p') ∈ queue' ∧ (length p' ≤ l' c + 1)%nat)) as Hcl_old.
  { intros queue' Hsub c q Hc Hst. rewrite (Hl'old c Hc).
    destruct (Hcl c q Hc Hst) as [[Hq ?]|(p' & [[= -> ->]|Hp']%elem_of_cons & Hlen)].
    - left. split; [by apply Hin_old|]. by rewrite (Hl'old q Hq).
    - left. split; [done|]. by rewrite Hl'new.
    - right. exists p'. split; [by apply Hsub|done]. }
  assert (∀ queue' : list ((Z * Z) * list (Z * Z)), (∀ q, q ∈ queue → q ∈ queue') →
            (s ∈ visited ∪ {[(x, y)]} ∧ l' s = 0%nat) ∨ (s, []) ∈ queue') as Hs'.
  { intros queue' Hsub. destruct Hs as [[Hsv ?]|[[= -> <-]|?]%elem_of_cons].
    - left. split; [by apply Hin_old|]. by rewrite (Hl'old s Hsv).
    - left. split; [done|]. by rewrite Hl'new.
    - right. by apply Hsub. }
  destruct (getitem (the_grid st) x y) as [t|] eqn:Hg; [|done].
  case_bool_decide as Ht.
  - destruct (dict_get t TILE_DIRECTIONS) as [dirs|] eqn:Hd; [|done].
    destruct (enqueue_app st x y p (visited ∪ {[(x, y)]}) dirs queue) as (news & Hq & Hnews).
    assert (Forall (λ b, length b.2 = (length p + 1)%nat) news) as Hnlen.
    { eapply Forall_impl; [exact Hnews|]. intros b ->. rewrite length_app. simpl. lia. }
    apply (IH _ _ l'); [| | | |done].
    + rewrite Hq. by apply (layered_app _ _ (length p)).
    + intros c q Hc. rewrite Hq. intros [Hq'|Hq']%elem_of_app.
      * etrans; [by apply Hl'p|]. apply Hmin. by right.
      * apply (proj1 (Forall_forall _ _) Hnlen) in Hq'. specialize (Hl'p c Hc). lia.
    + intros c q [Hc|Hc%elem_of_singleton]%elem_of_union Hst.
      * apply Hcl_old; [|done..]. intros q' ?. rewrite Hq. apply elem_of_app. by left.
      * subst c. rewrite Hl'new.
        destruct Hst as (t' & dirs' & d & Hg' & _ & Hd' & Hin & Hv & ->).
        simpl in *. rewrite Hg in Hg'. injection Hg' as <-.
        rewrite Hd in Hd'. injection Hd' as <-.
        destruct (decide ((x + d.1, y + d.2) ∈ visited ∪ {[(x, y)]})) as [Hin'|Hn].
        -- left. split; [done|]. specialize (Hl'p _ Hin'). lia.
        -- right. exists (p ++ [(x, y)]). split; [|rewrite length_app; simpl; lia].
           apply elem_of_enqueue. right. by exists d.
    + apply Hs'. intros q' ?. rewrite Hq. apply elem_of_app. by left.
  - apply (IH _ _ l'); [done| | | |done].
    + intros c q Hc Hq. etrans; [by apply Hl'p|]. apply Hmin. by right.
    + intros c q [Hc|Hc%elem_of_singleton]%elem_of_union Hst.
      * by apply Hcl_old.
      * subst c. destruct Hst as (t' & dirs' & d & Hg' & Ht' & _).
        simpl in *. rewrite Hg in Hg'. injection Hg' as <-. done.
    + by apply Hs'.
Qed.

Lemma bfs_shortest st s e path :
  bfs st s e = Ok (Some path) →
  ∀ path', walk st s path' e → (length path ≤ length path')%nat.
Proof.
  apply (bfs_loop_shortest st s e _ _ _ (λ _, 0%nat)).
  - simpl. by split.
  - intros c q Hc. by apply not_elem_of_empty in Hc.
  - intros c q Hc. by apply not_elem_of_empty in Hc.
  - right. by left.
  - apply not_elem_of_empty.
Qed.

Lemma bfs_loop_only_fuel_error st e fuel : ∀ queue visited e0,
  grid_shape_ok st → tiles_in_catalog st →
  Forall (λ q, in_grid st q.1.1 q.1.2) queue →
  bfs_loop fuel st e queue visited = Err e0 → e0 = OutOfFuel.
Proof.
  induction fuel as [|fuel IH]; intros queue visited e0 Hshape Hcat Hq; simpl.
  { by intros [= <-]. }
  destruct queue as [|[[x y] p] queue]; [done|].
  apply Forall_cons in Hq as [[t Hg] Hq]. simpl in Hg.
  case_bool_decide; [done|]. case_bool_decide; [by apply IH|].
  rewrite Hg. case_bool_decide as Ht; [|by apply IH].
  destruct (Hcat x y t Hg Ht) as [dirs ->].
  apply IH; [done..|]. apply enqueue_Forall; [done|].
  intros d _ Hv. simpl. apply bool_decide_eq_true in Hv.
  apply getitem_in_range; [done|lia..].
Qed.

(** X1.  On a grid of the solver's height and width whose tiles are all of
    catalog types, [bfs] raises no exception when the start is a cell of the
    grid or equals the end; when the start is neither, it raises
    [IndexError]. *)
Theorem bfs_raises_only_off_grid (st : ChickNorrisTV) (s e : Z * Z) :
  grid_shape_ok st → tiles_in_catalog st →
  (s = e ∨ in_grid st s.1 s.2 → ∃ r, bfs st s e = Ok r) ∧
  (s ≠ e → ¬ in_grid st s.1 s.2 → bfs st s e = Err IndexError).
Proof.
  intros Hshape Hcat. split.
  - intros [->|Hs]; [exists (Some []); apply bfs_same_endpoints|].
    destruct (bfs st s e) as [r|e0] eqn:Hb; [by exists r|]. exfalso.
    assert (e0 = OutOfFuel) as ->.
    { unfold bfs in Hb. eapply bfs_loop_only_fuel_error; [| | |exact Hb]; [done..|].
      by constructor. }
    by apply (bfs_terminates st s e).
  - intros Hne Hout. unfold bfs, bfs_fuel. destruct s as [x y]. simpl in *.
    rewrite bool_decide_eq_false_2 by done.
    rewrite bool_decide_eq_false_2 by apply not_elem_of_empty.
    destruct (getitem (the_grid st) x y) eqn:Hg; [|done].
    exfalso. apply Hout. by eexists.
Qed.

Lemma bfs_raises_only_off_grid_witness :
  (grid_shape_ok paved ∧ tiles_in_catalog paved) ∧
  (∃ r, bfs paved (0, 0) (0, 2) = Ok r) ∧
  bfs paved (0, 5) (0, 2) = Err IndexError.
Proof.
  assert (grid_shape_ok paved ∧ tiles_in_catalog paved) as [Hshape Hcat].
  { split.
    - split; [simpl; lia|]. split; [done|]. by repeat constructor.
    - intros x y t Hg Ht. unfold the_grid in Hg. simpl in Hg.
      apply getitem_locate in Hg as (i & j & row & _ & Hrow & Hc).
      destruct i as [|i]; [|by destruct i]. injection Hrow as <-.
      destruct j as [|[|[|j]]]; simpl in Hc; simplify_eq; try done;
        by apply (bool_decide_eq_true_1 (is_Some (dict_get "3" TILE_DIRECTIONS))). }
  split; [by split|].
  destruct (bfs_raises_only_off_grid paved (0, 0) (0, 2) Hshape Hcat) as [H1 _].
  destruct (bfs_raises_only_off_grid paved (0, 5) (0, 2) Hshape Hcat) as [_ H2].
  split; [apply H1; right; by eexists|]. apply H2; [done|].
  intros [c Hc]. vm_compute in Hc. discriminate Hc.
Defined.

(** X2.  [bfs] decides reachability and finds shortest paths: when it
    returns [None] no way leads from the start to the end, and a path it
    returns is a way from the start to the end that no other such way
    undercuts in length. *)
Theorem bfs_complete_and_shortest (st : ChickNorrisTV) (s e : Z * Z) :
  (bfs st s e = Ok None → ∀ path, ¬ walk st s path e) ∧
  (∀ path, bfs st s e = Ok (Some path) →
     walk st s path e ∧
     ∀ path', walk st s path' e → (length path ≤ length path')%nat).
Proof.
  split; [apply bfs_None_unreachable|].
  intros path Hb. split; [by apply bfs_walk in Hb as [? _]|]. by apply bfs_shortest.
Qed.

Lemma bfs_complete_and_shortest_witness :
  bfs paved (0, 0) (0, 2) = Ok (Some [(0, 0); (0, 1)]) ∧
  walk paved (0, 0) [(0, 0); (0, 1)] (0, 2) ∧
  (∀ path', walk paved (0, 0) path' (0, 2) → (2 ≤ length path')%nat) ∧
  bfs corridor (0, 0) (0, 2) = Ok None ∧
  ∀ path, ¬ walk corridor (0, 0) path (0, 2).
Proof.
  assert (bfs paved (0, 0) (0, 2) = Ok (Some [(0, 0); (0, 1)])) as H
    by (vm_compute; reflexivity).
  assert (bfs corridor (0, 0) (0, 2) = Ok None) as H' by (vm_compute; reflexivity).
  split; [exact H|].
  destruct (proj2 (bfs_complete_and_shortest paved (0, 0) (0, 2)) _ H) as [Hw Hmin].
  split; [exact Hw|]. split; [exact Hmin|]. split; [exact H'|].
  exact (proj1 (bfs_complete_and_shortest corridor (0, 0) (0, 2)) H').
Defined.

(** ** [place_tile] and [remove_tile]: what changes and what does not *)

(** X3.  [place_tile] changes the solver only when it returns [True]; a
    [False] and an exception leave it exactly as it was.  When it returns
    [True], the cell was an empty cell of the grid that is neither golden nor
    silver, the cell now holds the first two characters of the identifier,
    every other cell reads as before, the count of the identifier went from
    a positive [count] to [count - 1] at the same cost, every other inventory
    entry and the order of the identifiers are as before, and the instance,
    the recorded best and the other arrays of the store are untouched. *)
Theorem place_tile_changes_one_cell (st : ChickNorrisTV) (x y : Z) (tile_id : string) :
  match place_tile x y tile_id st with
  | Return true st' =>
      ((x, y) ∉ golden_points st) ∧ silver_points st !! (x, y) = None ∧ vacant st x y ∧
      getitem (the_grid st') x y = Some (U2 tile_id) ∧
      (∀ x' y', ¬ same_cell (the_grid st) (x', y') (x, y) →
                getitem (the_grid st') x' y' = getitem (the_grid st) x' y') ∧
      (∃ cost count, 0 < count ∧ dict_get tile_id (tiles st) = Some (cost, count) ∧
                     dict_get tile_id (tiles st') = Some (cost, count - 1)) ∧
      (∀ k, k ≠ tile_id → dict_get k (tiles st') = dict_get k (tiles st)) ∧
      dict_keys (tiles st') = dict_keys (tiles st) ∧
      (width st', height st', golden_points st', silver_points st')
      = (width st, height st, golden_points st, silver_points st) ∧
      (best_score st', best_solution st') = (best_score st, best_solution st) ∧
      grid st' = grid st ∧
      (∀ r, r ≠ grid st → store st' !! r = store st !! r)
  | Return false st' => st' = st
  | Raise _ st' => st' = st
  end.
Proof.
  unfold place_tile.
  destruct (bool_decide ((x, y) ∈ golden_points st)) eqn:Hg; [done|].
  destruct (bool_decide (is_Some (silver_points st !! (x, y)))) eqn:Hs; [done|].
  apply bool_decide_eq_false in Hg, Hs. simpl.
  destruct (getitem (the_grid st) x y) as [cell|] eqn:Hc; [|done].
  case_bool_decide as Hcell; [done|].
  assert (cell = EmptyString) as -> by (by destruct (decide (cell = EmptyString))).
  destruct (dict_get tile_id (tiles st)) as [[cost count]|] eqn:Hd; [|done].
  case_bool_decide as Hcount; [done|].
  destruct (setitem (the_grid st) x y tile_id) as [a|] eqn:Ha; [|done].
  assert (grid st < length (store st))%nat as Hv.
  { eapply getitem_grid_valid. by rewrite Hc. }
  rewrite the_grid_set_tiles, (the_grid_write a) by done.
  split; [done|]. split; [by apply eq_None_not_Some|]. split; [done|].
  split; [by eapply getitem_setitem_eq|].
  split; [intros x' y' Hne; by eapply getitem_setitem_ne|].
  split; [exists cost, count; simpl; rewrite dict_get_set_eq; split; [lia|done]|].
  split; [intros k Hk; simpl; by apply dict_get_set_ne|].
  split; [simpl; by eapply dict_keys_set|].
  do 3 (split; [done|]).
  intros r Hr. simpl. by apply list_lookup_insert_ne.
Qed.

Lemma place_tile_changes_one_cell_witness :
  ∃ st', place_tile 0 1 "C" corridor = Return true st' ∧
         getitem (the_grid st') 0 1 = Some "C"%string ∧
         getitem (the_grid st') 0 2 = Some EmptyString ∧
         dict_get "C"%string (tiles st') = Some (1, 4).
Proof.
  pose proof (place_tile_changes_one_cell corridor 0 1 "C") as H.
  destruct (place_tile 0 1 "C" corridor) as [[] st'|e st'] eqn:Hp.
  - exists st'. split; [done|].
    destruct H as (_ & _ & _ & Hc & Ho & (cost & count & _ & Hd & Hd') & _).
    split; [exact Hc|]. split.
    + rewrite Ho; [reflexivity|]. vm_compute. discriminate.
    + vm_compute in Hd. injection Hd as <- <-. exact Hd'.
  - vm_compute in Hp. discriminate Hp.
  - vm_compute in Hp. discriminate Hp.
Defined.

(** X4.  [remove_tile] on a pair outside the grid raises IndexError and on
    an empty cell returns, both without any change.  On a cell holding an
    identifier [t] it empties that cell and no other; then, if the inventory
    has an entry for [t], its count goes up by one at the same cost and the
    call returns, and if it has none the call raises KeyError with the cell
    already emptied: the exception does not undo the write.  Every other
    inventory entry, the order of the identifiers and the recorded best are
    as before. *)
Theorem remove_tile_empties_one_cell (st : ChickNorrisTV) (x y : Z) :
  match getitem (the_grid st) x y with
  | None => remove_tile x y st = Raise IndexError st
  | Some t =>
      if decide (t = EmptyString) then remove_tile x y st = Return tt st
      else
        ∃ st',
          match dict_get t (tiles st) with
          | Some (cost, count) =>
              remove_tile x y st = Return tt st' ∧
              dict_get t (tiles st') = Some (cost, count + 1)
          | None => remove_tile x y st = Raise KeyError st' ∧ tiles st' = tiles st
          end ∧
          vacant st' x y ∧
          (∀ x' y', ¬ same_cell (the_grid st) (x', y') (x, y) →
                    getitem (the_grid st') x' y' = getitem (the_grid st) x' y') ∧
          (∀ k, k ≠ t → dict_get k (tiles st') = dict_get k (tiles st)) ∧
          dict_keys (tiles st') = dict_keys (tiles st) ∧
          (best_score st', best_solution st') = (best_score st, best_solution st) ∧
          grid st' = grid st ∧
          (∀ r, r ≠ grid st → store st' !! r = store st !! r)
  end.
Proof.
  unfold remove_tile.
  destruct (getitem (the_grid st) x y) as [t|] eqn:Hc; [|done].
  destruct (decide (t = EmptyString)) as [->|Ht].
  { by rewrite bool_decide_eq_false_2 by (by intros []). }
  rewrite bool_decide_eq_true_2 by done.
  assert (grid st < length (store st))%nat as Hv.
  { eapply getitem_grid_valid. by rewrite Hc. }
  destruct (setitem_is_Some (the_grid st) x y EmptyString) as [a Ha]; [by rewrite Hc|].
  rewrite Ha. simpl.
  assert (vacant (write_grid a st) x y) as Hvac.
  { unfold vacant. rewrite (the_grid_write a) by done.
    by rewrite (getitem_setitem_eq _ _ _ _ _ Ha). }
  assert (∀ x' y', ¬ same_cell (the_grid st) (x', y') (x, y) →
            getitem (the_grid (write_grid a st)) x' y' = getitem (the_grid st) x' y') as Hfr.
  { intros x' y' Hne. rewrite (the_grid_write a) by done. by eapply getitem_setitem_ne. }
  assert (∀ r, r ≠ grid st → store (write_grid a st) !! r = store st !! r) as Hst.
  { intros r Hr. simpl. by apply list_lookup_insert_ne. }
  destruct (dict_get t (tiles st)) as [[cost count]|] eqn:Hd.
  - eexists. split; [split; [reflexivity|simpl; by rewrite dict_get_set_eq]|].
    split; [exact Hvac|]. split; [exact Hfr|].
    split; [intros k Hk; simpl; by apply dict_get_set_ne|].
    split; [simpl; by eapply dict_keys_set|]. by repeat split.
  - eexists. split; [split; reflexivity|]. by repeat split.
Qed.

Lemma remove_tile_empties_one_cell_witness :
  remove_tile 0 5 paved = Raise IndexError paved ∧
  remove_tile 0 2 paved = Return tt paved ∧
  ∃ st', remove_tile 0 1 paved = Return tt st' ∧
         dict_get "3"%string (tiles st') = Some (2, 4) ∧
         getitem (the_grid st') 0 1 = Some EmptyString ∧
         getitem (the_grid st') 0 0 = Some "3"%string.
Proof.
  split; [exact (remove_tile_empties_one_cell paved 0 5)|].
  split; [exact (remove_tile_empties_one_cell paved 0 2)|].
  destruct (remove_tile_empties_one_cell paved 0 1) as (st' & Hr & Hvac & Hfr & _).
  exists st'. split; [exact (proj1 Hr)|]. split; [exact (proj2 Hr)|].
  split; [exact Hvac|]. rewrite Hfr; [reflexivity|]. vm_compute. discriminate.
Defined.

(** X5.  The round trip of [place_tile] and [remove_tile] needs an
    identifier that a two-character cell stores unchanged.  For every other
    identifier (empty, longer than two characters, or ending in NUL) a
    successful [place_tile] takes one unit that the following [remove_tile]
    at the same cell never gives back, whether it returns or raises: the
    cell holds a different string, so the count of the identifier stays at
    [count - 1]. *)
Theorem unfit_identifier_loses_a_unit (st st1 : ChickNorrisTV) (x y : Z)
    (tile_id : string) :
  ¬ fits_cell tile_id →
  place_tile x y tile_id st = Return true st1 →
  ∃ cost count,
    dict_get tile_id (tiles st) = Some (cost, count) ∧
    dict_get tile_id (tiles (final (remove_tile x y st1))) = Some (cost, count - 1).
Proof.
  intros Hfit Hp.
  destruct (place_tile_cases x y tile_id st)
    as [H|[H|[[_ H]|(a & cost & count & Hvac & Hd & Hpos & Ha & H)]]];
    rewrite H in Hp; try discriminate Hp.
  injection Hp as <-. exists cost, count. split; [done|].
  set (st1 := set_tiles _ _).
  assert (dict_get tile_id (tiles st1) = Some (cost, count - 1)) as Hd1.
  { simpl. by rewrite dict_get_set_eq. }
  assert (getitem (the_grid st1) x y = Some (U2 tile_id)) as Hcell.
  { unfold st1. rewrite the_grid_set_tiles, (the_grid_write a)
      by (eapply getitem_grid_valid; by rewrite Hvac).
    by eapply getitem_setitem_eq. }
  destruct (remove_tile_cases x y st1)
    as [Hr|[Hr|(t & a' & Ht & Hne & Ha' & [[_ Hr]|(c & n & _ & Hr)])]];
    rewrite Hr; simpl; try done.
  rewrite dict_get_set_ne; [by rewrite dict_get_set_eq|].
  intros Heq. apply Hfit. split; congruence.
Qed.

Lemma unfit_identifier_loses_a_unit_witness :
  ∃ st1,
    place_tile 0 1 "ABC" (set_tiles [("ABC"%string, (1, 2))] corridor) = Return true st1 ∧
    getitem (the_grid st1) 0 1 = Some "AB"%string ∧
    remove_tile 0 1 st1 = Raise KeyError (final (remove_tile 0 1 st1)) ∧
    dict_get "ABC"%string (tiles (final (remove_tile 0 1 st1))) = Some (1, 1).
Proof.
  destruct (place_tile 0 1 "ABC" (set_tiles [("ABC"%string, (1, 2))] corridor))
    as [[] st1|e st1] eqn:Hp; [|vm_compute in Hp; discriminate Hp..].
  exists st1. split; [done|].
  assert (¬ fits_cell "ABC") as Hfit.
  { intros [HU _]. vm_compute in HU. discriminate HU. }
  destruct (unfit_identifier_loses_a_unit _ st1 0 1 "ABC" Hfit Hp)
    as (cost & count & Hd & Hd').
  vm_compute in Hd. injection Hd as <- <-.
  split; [|split; [|exact Hd']].
  - vm_compute in Hp. injection Hp as <-. reflexivity.
  - vm_compute in Hp. injection Hp as <-. reflexivity.
Defined.

(** ** The whole run *)

Lemma calculate_score_few st :
  (length (golden_points st) < 2)%nat → calculate_score st = Ok (Fin 0).
Proof.
  unfold calculate_score. intros Hlen.
  destruct (golden_points st) as [|s [|e rest]]; simpl in Hlen; [done..|lia].
Qed.

Global Instance frozen_preorder : PreOrder frozen.
Proof.
  split; [by intros st ?|].
  intros s1 s2 s3 H12 H23 H1. destruct (H12 H1) as (H2 & ? & ?).
  destruct (H23 H2) as (H3 & ? & ?). split; [done|]. split; congruence.
Qed.

Global Instance steady_preorder : PreOrder steady.
Proof.
  split; [by intros st ?|].
  intros s1 s2 s3 H12 H23 H1. destruct (H12 H1) as (H2 & ?).
  destruct (H23 H2) as (H3 & ?). split; [done|]. congruence.
Qed.

Lemma frozen_place x y tile_id : stable frozen (place_tile x y tile_id).
Proof.
  intros st Ho.
  destruct (place_tile_cases x y tile_id st)
    as [->|[->|[[_ ->]|(a & cost & count & _ & _ & _ & _ & ->)]]]; done.
Qed.

Lemma frozen_remove x y : stable frozen (remove_tile x y).
Proof.
  intros st Ho.
  destruct (remove_tile_cases x y st)
    as [->|[->|(id & a & _ & _ & _ & [[_ ->]|(cost & count & Hd & ->)])]]; done.
Qed.

Lemma frozen_backtrack fuel x y : stable frozen (backtrack fuel x y).
Proof.
  intros st. destruct fuel as [|fuel]; [reflexivity|].
  intros Ho. destruct Ho as (Hm & k & Hk & He).
  rewrite backtrack_expired.
  - simpl. split; [|done]. split; [done|]. exists k. split; [simpl; lia|done].
  - by apply (expired_later st st k).
Qed.

Lemma frozen_loop fuel x y keys :
  stable frozen (for_each keys (try_tile (backtrack fuel x (y + 1)) x y)).
Proof.
  apply stable_for_each; [apply _|]. intros tile_id.
  apply stable_try_tile;
    [apply _|apply frozen_place|apply frozen_backtrack|apply frozen_remove].
Qed.

Lemma steady_place x y tile_id : stable steady (place_tile x y tile_id).
Proof.
  intros st Ho.
  destruct (place_tile_cases x y tile_id st)
    as [->|[->|[[_ ->]|(a & cost & count & _ & _ & _ & _ & ->)]]]; done.
Qed.

Lemma steady_remove x y : stable steady (remove_tile x y).
Proof.
  intros st Ho.
  destruct (remove_tile_cases x y st)
    as [->|[->|(id & a & _ & _ & _ & [[_ ->]|(cost & count & Hd & ->)])]]; done.
Qed.

Lemma steady_evaluate : stable steady evaluate.
Proof.
  intros st [Hlen Hb]. rewrite evaluate_unfold, (calculate_score_few st Hlen), Hb.
  by simpl.
Qed.

Lemma steady_backtrack fuel x y : stable steady (backtrack fuel x y).
Proof.
  apply (stable_backtrack steady (λ _ _, True));
    auto using steady_place, steady_remove, steady_evaluate.
  by intros st.
Qed.

Lemma steady_loop fuel x y keys :
  stable steady (for_each keys (try_tile (backtrack fuel x (y + 1)) x y)).
Proof.
  apply stable_for_each; [apply _|]. intros tile_id.
  apply stable_try_tile;
    [apply _|apply steady_place|apply steady_backtrack|apply steady_remove].
Qed.

Lemma evolves_loop fuel x y keys :
  stable evolves (for_each keys (try_tile (backtrack fuel x (y + 1)) x y)).
Proof.
  apply stable_for_each; [apply _|]. intros tile_id.
  apply stable_try_tile;
    [apply _|apply evolves_place|apply evolves_backtrack|apply evolves_remove].
Qed.

Lemma expired_mono st k k' :
  monotone (clock st) → expired st k → (k ≤ k')%nat → expired st k'.
Proof.
  unfold expired. intros Hm He Hk. apply Qgtb_true. apply Qgtb_true in He.
  specialize (Hm k k' Hk). lra.
Qed.

(** The first descent of the search, from a solver without a pair of golden
    points and without a recorded best: it ends either overdue, with nothing
    recorded, or with a copy of the grid it started from recorded at score 0;
    which of the two is decided by the clock reading of the evaluating call. *)
Lemma first_descent fuel : ∀ x y st st',
  (length (golden_points st) < 2)%nat → monotone (clock st) →
  best_score st = NegInf → (grid st < length (store st))%nat →
  (0 ≤ x < height st ∧ 0 ≤ y ≤ width st) ∨ (x = height st ∧ y = 0) →
  backtrack fuel x y st = Return tt st' →
  (expired st (first_evaluation st x y) ∧ overdue st' ∧
   best_solution st' = best_solution st ∧ best_score st' = NegInf) ∨
  (¬ expired st (first_evaluation st x y) ∧ settled st' ∧
   ∃ r, best_solution st' = Some r ∧ store st' !! r = Some (the_grid st) ∧ r ≠ grid st').
Proof.
  induction fuel as [|fuel IH]; intros x y st st' Hlen Hm Hb Hv Hpos H; [done|].
  rewrite backtrack_unfold in H. cbv zeta in H.
  set (st1 := set_ticks (S (ticks st)) st) in *.
  destruct (Qgtb _ _) eqn:Hq.
  { injection H as <-. left. split; [|split; [|done]].
    - apply (expired_mono st (ticks st)); [done..|]. unfold first_evaluation. lia.
    - split; [done|]. exists (ticks st). split; [simpl; lia|done]. }
  case_bool_decide as Hx.
  { assert (y = 0) as -> by lia. subst x.
    rewrite evaluate_unfold, (calculate_score_few st1 Hlen) in H.
    change (best_score st1) with (best_score st) in H. rewrite Hb in H. simpl in H.
    injection H as <-. right. split; [|split; [done|]].
    - unfold first_evaluation, calls_left, expired.
      replace (ticks st + _)%nat with (ticks st) by lia. by rewrite Hq.
    - exists (length (store st)). split; [done|]. simpl. split; [|lia].
      by rewrite lookup_app_r, Nat.sub_diag. }
  case_bool_decide as Hy.
  { subst y.
    assert (first_evaluation st1 (x + 1) 0 = first_evaluation st x (width st)) as Hfe.
    { unfold first_evaluation, calls_left. simpl.
      assert (0 ≤ (height st - (x + 1)) * (width st + 1)) by nia. lia. }
    destruct (IH (x + 1) 0 st1 st' Hlen Hm Hb Hv) as [H1|H1]; [simpl; lia|done| |].
    - left. by rewrite <-Hfe.
    - right. by rewrite <-Hfe. }
  destruct (backtrack fuel x (y + 1) st1) as [[] st2|e st2] eqn:Hb2; [|discriminate H].
  assert (first_evaluation st1 x (y + 1) = first_evaluation st x y) as Hfe.
  { unfold first_evaluation, calls_left. simpl.
    assert (0 ≤ (height st - x) * (width st + 1) - (y + 1)) by nia. lia. }
  destruct (IH x (y + 1) st1 st2 Hlen Hm Hb Hv) as [H1|H1]; [simpl; lia|done| |].
  - destruct H1 as (He & Ho & Hs & Hsc). left. split; [by rewrite <-Hfe|].
    pose proof (frozen_loop fuel x y (dict_keys (tiles st2)) st2 Ho) as Hf.
    rewrite H in Hf. simpl in Hf. destruct Hf as (Ho' & Hs' & Hsc').
    split; [done|]. split; [by rewrite Hs', Hs|by rewrite Hsc', Hsc].
  - destruct H1 as (He & Hset & r & Hs & Hr & Hne). right. split; [by rewrite <-Hfe|].
    pose proof (steady_loop fuel x y (dict_keys (tiles st2)) st2 Hset) as Hf.
    pose proof (evolves_loop fuel x y (dict_keys (tiles st2)) st2) as Hev.
    rewrite H in Hf, Hev. simpl in Hf, Hev. destruct Hf as (Hset' & Hs').
    split; [done|]. exists r. split; [congruence|]. split.
    + by apply (ev_store _ _ Hev).
    + by rewrite (ev_grid _ _ Hev).
Qed.

(** What [solve] returns on a freshly constructed solver. *)
Lemma solve_result (clk : nat → Q) (w h : Z) (golden : list (Z * Z))
    (silver : list (Z * Z * Z)) (tls : list (string * (Z * Z))) (st : ChickNorrisTV) :
  init clk w h golden silver tls = Ok st →
  (∀ p, p ∈ golden → is_valid st p.1 p.2 = true) →
  Forall fits_cell (dict_keys tls) →
  monotone clk →
  ∃ st',
    (((2 ≤ length (golden_points st))%nat ∨
      (300 < clk (S (Z.to_nat (h * (w + 1)))) - clk 0%nat)%Q) ∧
     solve st = Return (None, NegInf) st') ∨
    ((length (golden_points st) < 2)%nat ∧
     (clk (S (Z.to_nat (h * (w + 1)))) - clk 0%nat <= 300)%Q ∧
     ∃ r, solve st = Return (Some r, Fin 0) st' ∧
          store st' !! r = Some (zeros (Z.to_nat h) (Z.to_nat w))).
Proof.
  intros Hi Hvalid Hfit Hm.
  destruct (init_well_formed _ _ _ _ _ _ _ Hi Hvalid Hfit) as (Hwf & Hh & Hw).
  destruct (solve_returns st Hwf Hh Hw) as (res & st' & Hs). exists st'.
  pose proof Hs as Hs'. rewrite solve_unfold in Hs'.
  destruct (backtrack (search_fuel st) 0 0 st) as [[] s1|e s1] eqn:Hb; [|done].
  injection Hs' as <- <-.
  destruct (decide (2 ≤ length (golden_points st))%nat) as [Hlen|Hlen].
  { left. split; [by left|].
    destruct Hwf as (_ & _ & _ & Hclear).
    destruct (unrewarded_solve st (conj Hlen Hclear)) as (_ & Hsol & Hsc).
    rewrite Hs in Hsol, Hsc. simpl in Hsol, Hsc. rewrite Hs, Hsol, Hsc.
    unfold init in Hi. case_bool_decide; [done|]. by injection Hi as <-. }
  unfold init in Hi. case_bool_decide; [done|]. injection Hi as Hst.
  assert (first_evaluation st 0 0 = S (Z.to_nat (h * (w + 1)))) as Hfe.
  { rewrite <-Hst. unfold first_evaluation, calls_left. simpl.
    replace ((h - 0) * (w + 1) - 0) with (h * (w + 1)) by lia. done. }
  assert (∀ k, expired st k ↔ (300 < clk k - clk 0%nat)%Q) as Hexp.
  { intros k. unfold expired. rewrite Qgtb_true, <-Hst. done. }
  destruct (first_descent (search_fuel st) 0 0 st s1) as [H1|H1]; try done.
  - lia.
  - by rewrite <-Hst.
  - by rewrite <-Hst.
  - rewrite <-Hst. simpl. lia.
  - assert (h = 0 ∨ 0 < h) as [->|?] by lia.
    + right. rewrite <-Hst. simpl. lia.
    + left. rewrite <-Hst. simpl. lia.
  - destruct H1 as (He & _ & Hsol & Hsc). left.
    split; [right; by rewrite <-Hexp, <-Hfe|].
    rewrite Hs, Hsol, Hsc. by rewrite <-Hst.
  - destruct H1 as (He & [_ Hsc] & r & Hsol & Hr & _). right.
    split; [lia|]. split.
    + apply Qnot_lt_le. by rewrite <-Hexp, <-Hfe.
    + exists r. rewrite Hs, Hsol, Hsc. split; [done|]. rewrite Hr.
      by rewrite <-Hst.
Qed.

(** X6.  The result of a whole run, for a solver constructed on an instance
    whose golden points are cells of the grid and whose identifiers fit a
    cell, under a clock that never runs backwards.  [solve] returns, and what
    it returns is never a grid with a tile on it: the result is no solution
    and negative infinity when there are two or more golden points or when
    the clock reading taken on reaching the first complete grid, reading
    number [h * (w + 1) + 1] of the search, is past the 300 seconds;
    otherwise it is the score 0 with a copy of the empty grid. *)
Theorem solve_returns_no_tile (clk : nat → Q) (w h : Z) (golden : list (Z * Z))
    (silver : list (Z * Z * Z)) (tls : list (string * (Z * Z))) (st : ChickNorrisTV) :
  init clk w h golden silver tls = Ok st →
  (∀ p, p ∈ golden → is_valid st p.1 p.2 = true) →
  Forall fits_cell (dict_keys tls) →
  monotone clk →
  ∃ st',
    (((2 ≤ length (golden_points st))%nat ∨
      (300 < clk (S (Z.to_nat (h * (w + 1)))) - clk 0%nat)%Q) ∧
     solve st = Return (None, NegInf) st') ∨
    ((length (golden_points st) < 2)%nat ∧
     (clk (S (Z.to_nat (h * (w + 1)))) - clk 0%nat <= 300)%Q ∧
     ∃ r, solve st = Return (Some r, Fin 0) st' ∧
          store st' !! r = Some (zeros (Z.to_nat h) (Z.to_nat w))).
Proof. apply solve_result. Qed.

Lemma solve_returns_no_tile_witness :
  ∃ st st' r,
    init still_clock 2 1 [(0, 0)] [] [("C"%string, (1, 5))] = Ok st ∧
    solve st = Return (Some r, Fin 0) st' ∧
    store st' !! r = Some [[EmptyString; EmptyString]].
Proof.
  destruct (init still_clock 2 1 [(0, 0)] [] [("C"%string, (1, 5))]) as [st|e] eqn:Hi;
    [|vm_compute in Hi; discriminate Hi].
  exists st.
  destruct (solve_returns_no_tile _ _ _ _ _ _ st Hi)
    as (st' & [[Hc Hs]|(Hl & Hq & r & Hs & Hr)]).
  - intros p Hp. apply list_elem_of_singleton in Hp as ->.
    vm_compute in Hi. injection Hi as <-. reflexivity.
  - repeat constructor. discriminate.
  - intros i j _. apply Qle_refl.
  - exfalso. vm_compute in Hi. injection Hi as <-. simpl in Hc.
    destruct Hc as [Hc|Hc]; [lia|]. vm_compute in Hc. discriminate Hc.
  - exists st', r. split; [reflexivity|]. split; [exact Hs|exact Hr].
Defined.

(** ** Writing the result *)

Lemma getitem_nat a x y row :
  a !! x = Some row → (y < length row)%nat →
  getitem a (Z.of_nat x) (Z.of_nat y) = row !! y.
Proof.
  intros Hrow Hy. unfold getitem.
  rewrite index_nonneg by (apply lookup_lt_Some in Hrow; lia). simpl.
  rewrite Nat2Z.id, Hrow. simpl. rewrite index_nonneg by lia. simpl.
  by rewrite Nat2Z.id.
Qed.

Lemma write_row_lines a x row :
  a !! x = Some row →
  ∀ n j out, (j + n = length row)%nat →
    write_row a x (seq j n) out = (out ++ row_lines x j (drop j row), None).
Proof.
  intros Hrow. induction n as [|n IH]; intros j out Hj; simpl.
  - rewrite drop_ge by lia. simpl. by rewrite app_nil_r.
  - destruct (lookup_lt_is_Some_2 row j) as [t Ht]; [lia|].
    rewrite (getitem_nat a x j row Hrow), Ht by lia.
    rewrite (drop_S _ _ _ Ht). simpl. rewrite IH by lia.
    case_bool_decide; [by rewrite <-app_assoc|done].
Qed.

Lemma write_rows_lines a w :
  Forall (λ row, length row = w) a →
  ∀ n i out, (i + n = length a)%nat →
    write_rows a (seq i n) w out = (out ++ grid_lines i (drop i a), None).
Proof.
  intros Hw. induction n as [|n IH]; intros i out Hi; simpl.
  - rewrite drop_ge by lia. simpl. by rewrite app_nil_r.
  - destruct (lookup_lt_is_Some_2 a i) as [row Hrow]; [lia|].
    assert (length row = w) as Hlen.
    { apply (proj1 (Forall_forall _ _) Hw). by eapply list_elem_of_lookup_2. }
    rewrite (write_row_lines a i row Hrow w 0 out) by lia.
    rewrite drop_0, IH by lia. rewrite (drop_S _ _ _ Hrow). simpl.
    by rewrite <-app_assoc.
Qed.

Lemma write_output_rectangular a sc :
  rectangular a → write_output (Some a) sc = (grid_lines 0 a ++ [score_line sc], None).
Proof.
  intros Hr. unfold write_output. change (shape a).1 with (length a).
  rewrite (write_rows_lines a _ Hr (length a) 0 []) by done.
  by rewrite drop_0.
Qed.

Lemma elem_of_row_lines x row : ∀ j y t,
  row !! y = Some t → t ≠ EmptyString → tile_line t (j + y) x ∈ row_lines x j row.
Proof.
  induction row as [|c row IH]; intros j y t Hy Ht; [done|].
  destruct y as [|y]; simpl in *.
  - injection Hy as ->. rewrite bool_decide_eq_true_2 by done.
    rewrite Nat.add_0_r. by left.
  - apply elem_of_app. right. replace (j + S y)%nat with (S j + y)%nat by lia.
    by apply IH.
Qed.

Lemma elem_of_grid_lines a : ∀ i x y row t,
  a !! x = Some row → row !! y = Some t → t ≠ EmptyString →
  tile_line t y (i + x) ∈ grid_lines i a.
Proof.
  induction a as [|r a IH]; intros i x y row t Hx Hy Ht; [done|].
  destruct x as [|x]; simpl in *; apply elem_of_app.
  - injection Hx as ->. left. rewrite Nat.add_0_r.
    by apply (elem_of_row_lines i row 0 y t).
  - right. replace (i + S x)%nat with (S i + x)%nat by lia. by eapply IH.
Qed.

Lemma length_row_lines x row : ∀ j,
  length (row_lines x j row) = length (filter (λ t, t ≠ EmptyString) row).
Proof.
  induction row as [|c row IH]; intros j; [done|]. simpl.
  rewrite filter_cons. case_bool_decide; case_decide; try done; simpl; by rewrite IH.
Qed.

Lemma length_grid_lines a : ∀ i,
  length (grid_lines i a) = length (filter (λ t, t ≠ EmptyString) (concat a)).
Proof.
  induction a as [|row a IH]; intros i; [done|]. simpl.
  by rewrite length_app, filter_app, length_app, length_row_lines, IH.
Qed.

Lemma row_lines_empty x w : ∀ j, row_lines x j (replicate w EmptyString) = [].
Proof. induction w as [|w IH]; intros j; [done|]. simpl. by rewrite IH. Qed.

Lemma grid_lines_zeros h w : ∀ i, grid_lines i (zeros h w) = [].
Proof.
  unfold zeros. induction h as [|h IH]; intros i; [done|]. simpl.
  by rewrite IH, row_lines_empty.
Qed.

Lemma rectangular_zeros h w : rectangular (zeros h w).
Proof.
  unfold rectangular, shape, zeros. destruct h as [|h]; [constructor|].
  simpl. rewrite length_replicate.
  constructor; [by rewrite length_replicate|].
  apply Forall_replicate. by rewrite length_replicate.
Qed.

(** X7.  [write_output] with no solution raises AttributeError after the
    file has been opened for writing, so the file is left empty.  With a
    solution array it raises nothing and writes one line per cell that holds
    a tile, row by row and within a row from left to right, each line giving
    the tile, then the column, then the row; the score line comes last and
    is written exactly once.  Empty cells write nothing. *)
Theorem write_output_lists_every_tile :
  (∀ sc, write_output None sc = ([], Some AttributeError)) ∧
  (∀ a sc,
     rectangular a →
     write_output (Some a) sc = (grid_lines 0 a ++ [score_line sc], None) ∧
     length (grid_lines 0 a) = length (filter (λ t, t ≠ EmptyString) (concat a)) ∧
     (∀ x y row t, a !! x = Some row → row !! y = Some t → t ≠ EmptyString →
                   tile_line t y x ∈ grid_lines 0 a)).
Proof.
  split; [done|]. intros a sc Hr.
  split; [by apply write_output_rectangular|]. split; [apply length_grid_lines|].
  intros x y row t Hx Hy Ht. by apply (elem_of_grid_lines a 0 x y row t).
Qed.

Lemma write_output_lists_every_tile_witness :
  write_output (Some [["3"; ""; "C3"]; [""; "F"; ""]]%string) (Fin (-4))
  = (["3 0 0" +:+ newline; "C3 2 0" +:+ newline; "F 1 1" +:+ newline;
      "# Score: -4" +:+ newline], None).
Proof.
  refine (proj1 (proj2 write_output_lists_every_tile _ _ _)).
  repeat constructor.
Defined.

(** X8.  [solve] followed by [write_output] on its result, as the main
    program runs them, never writes a tile line.  On an instance whose
    golden points are cells of the grid and whose identifiers fit a cell,
    under a clock that never runs backwards: either [solve] returns no
    solution, which is always so with two or more golden points, and
    [write_output] raises AttributeError leaving the file empty; or the file
    consists of the single line [# Score: 0]. *)
Theorem output_never_lists_a_tile (clk : nat → Q) (w h : Z) (golden : list (Z * Z))
    (silver : list (Z * Z * Z)) (tls : list (string * (Z * Z))) (st : ChickNorrisTV) :
  init clk w h golden silver tls = Ok st →
  (∀ p, p ∈ golden → is_valid st p.1 p.2 = true) →
  Forall fits_cell (dict_keys tls) →
  monotone clk →
  ∃ r sc st',
    solve st = Return (r, sc) st' ∧
    ((2 ≤ length (golden_points st))%nat → r = None) ∧
    match r with
    | None => write_output None sc = ([], Some AttributeError)
    | Some k =>
        ∃ a, store st' !! k = Some a ∧
             write_output (Some a) sc = (["# Score: 0" +:+ newline], None)
    end.
Proof.
  intros Hi Hvalid Hfit Hm.
  destruct (solve_result clk w h golden silver tls st Hi Hvalid Hfit Hm)
    as (st' & [[_ Hs]|(Hlen & _ & r & Hs & Hr)]).
  - exists None, NegInf, st'. by repeat split.
  - exists (Some r), (Fin 0), st'. split; [done|]. split; [lia|].
    eexists. split; [done|].
    rewrite write_output_rectangular by apply rectangular_zeros.
    by rewrite grid_lines_zeros.
Qed.

Lemma output_never_lists_a_tile_witness :
  ∃ st k a st',
    init still_clock 2 1 [(0, 0)] [] [("C"%string, (1, 5))] = Ok st ∧
    solve st = Return (Some k, Fin 0) st' ∧ store st' !! k = Some a ∧
    write_output (Some a) (Fin 0) = (["# Score: 0" +:+ newline], None).
Proof.
  destruct (init still_clock 2 1 [(0, 0)] [] [("C"%string, (1, 5))]) as [st|e] eqn:Hi;
    [|vm_compute in Hi; discriminate Hi].
  exists st.
  destruct (output_never_lists_a_tile _ _ _ _ _ _ st Hi)
    as (r & sc & st' & Hs & _ & Hw).
  - intros p Hp. apply list_elem_of_singleton in Hp as ->.
    vm_compute in Hi. injection Hi as <-. reflexivity.
  - repeat constructor. discriminate.
  - intros i j _. apply Qle_refl.
  - destruct r as [k|].
    + destruct Hw as (a & Ha & Hw). exists k, a, st'.
      assert (sc = Fin 0) as ->.
      { vm_compute in Hi. injection Hi as <-. vm_compute in Hs. by injection Hs. }
      by repeat split.
    + exfalso. vm_compute in Hi. injection Hi as <-. vm_compute in Hs. discriminate Hs.
Defined.

(** ** Coordinates are array indices *)

Lemma index_wrap n i : 0 ≤ i < Z.of_nat n → index n (i - Z.of_nat n) = index n i.
Proof.
  intros Hi. unfold index.
  rewrite (bool_decide_eq_false_2 (0 ≤ i - Z.of_nat n < Z.of_nat n)) by lia.
  rewrite (bool_decide_eq_true_2 (- Z.of_nat n ≤ i - Z.of_nat n < 0)) by lia.
  rewrite (bool_decide_eq_true_2 (0 ≤ i < Z.of_nat n)) by lia.
  f_equal. lia.
Qed.

Lemma locate_wrap st x y :
  grid_shape_ok st → 0 ≤ x < height st → 0 ≤ y < width st →
  locate (the_grid st) (x - height st) (y - width st) = locate (the_grid st) x y.
Proof.
  intros (_ & Hlen & Hrows) Hx Hy. unfold locate.
  replace (height st) with (Z.of_nat (length (the_grid st))) at 1 by lia.
  rewrite index_wrap by lia.
  destruct (index (length (the_grid st)) x) as [i|]; simpl; [|done].
  destruct (the_grid st !! i) as [row|] eqn:Hrow; simpl; [|done].
  assert (length row = Z.to_nat (width st)) as Hw.
  { apply (proj1 (Forall_forall _ _) Hrows). by eapply list_elem_of_lookup_2. }
  replace (width st) with (Z.of_nat (length row)) at 1 by lia.
  by rewrite index_wrap by lia.
Qed.

(** X9.  [place_tile] does not call [is_valid]: its coordinates are array
    indices, and a negative index counts from the end.  For a cell [(x, y)]
    of the grid, the pair [(x - height, y - width)] is not valid but names
    the same cell, and the golden and silver tests look at the pair as
    given.  So, when that pair is itself neither golden nor silver and the
    cell is empty, [place_tile] at [(x - height, y - width)] puts the tile
    on [(x, y)], also when [(x, y)] is a golden or a silver point. *)
Theorem negative_coordinates_wrap (st : ChickNorrisTV) (x y : Z) (tile_id : string)
    (cost count : Z) :
  grid_shape_ok st → 0 ≤ x < height st → 0 ≤ y < width st →
  ((x - height st, y - width st) ∉ golden_points st) →
  silver_points st !! (x - height st, y - width st) = None →
  vacant st x y →
  dict_get tile_id (tiles st) = Some (cost, count) → 0 < count →
  is_valid st (x - height st) (y - width st) = false ∧
  same_cell (the_grid st) (x - height st, y - width st) (x, y) ∧
  ∃ st', place_tile (x - height st) (y - width st) tile_id st = Return true st' ∧
         getitem (the_grid st') x y = Some (U2 tile_id).
Proof.
  intros Hshape Hx Hy Hg Hs Hvac Hd Hcount.
  pose proof (locate_wrap st x y Hshape Hx Hy) as Hl.
  split; [apply bool_decide_eq_false_2; lia|]. split; [exact Hl|].
  assert (getitem (the_grid st) (x - height st) (y - width st) = Some EmptyString) as Hc.
  { by rewrite getitem_via_locate, Hl, <-getitem_via_locate. }
  destruct (setitem_is_Some (the_grid st) (x - height st) (y - width st) tile_id)
    as [a Ha]; [by rewrite Hc|].
  unfold place_tile.
  rewrite (bool_decide_eq_false_2 _ Hg), bool_decide_eq_false_2
    by (rewrite Hs; by intros [? ?]).
  simpl. rewrite Hc, bool_decide_eq_false_2 by (by intros []).
  rewrite Hd, bool_decide_eq_false_2 by lia. rewrite Ha.
  eexists. split; [done|].
  rewrite the_grid_set_tiles, (the_grid_write a) by apply Hshape.
  rewrite getitem_via_locate, (locate_setitem _ _ _ _ _ x y Ha), <-Hl.
  rewrite <-(locate_setitem _ _ _ _ _ _ _ Ha), <-getitem_via_locate.
  by eapply getitem_setitem_eq.
Qed.

Lemma negative_coordinates_wrap_witness :
  (0, 0) ∈ golden_points corridor ∧
  ∃ st', place_tile (-1) (-3) "C" corridor = Return true st' ∧
         getitem (the_grid st') 0 0 = Some "C"%string.
Proof.
  split; [by left|].
  refine (proj2 (proj2 (negative_coordinates_wrap corridor 0 0 "C" 1 5 _ _ _ _ _ _ _ _))).
  - split; [simpl; lia|]. split; [reflexivity|]. repeat constructor.
  - simpl. lia.
  - simpl. lia.
  - simpl. intros H. apply elem_of_cons in H as [H|H]; [discriminate H|].
    apply elem_of_cons in H as [H|H]; [discriminate H|]. by apply elem_of_nil in H.
  - reflexivity.
  - reflexivity.
  - reflexivity.
  - lia.
Defined.

(** ** The constructor *)

Lemma silver_fold_other (l : list (Z * Z * Z)) : ∀ (m : gmap (Z * Z) Z) c,
  c ∉ l.*1 → foldl (λ m p, <[p.1 := p.2]> m) m l !! c = m !! c.
Proof.
  induction l as [|p l IH]; intros m c Hc; [done|]. simpl.
  rewrite fmap_cons, not_elem_of_cons in Hc. destruct Hc as [Hne Hc].
  rewrite IH by done. by apply lookup_insert_ne.
Qed.

Lemma silver_fold_is_Some (l : list (Z * Z * Z)) : ∀ (m : gmap (Z * Z) Z) c,
  is_Some (foldl (λ m p, <[p.1 := p.2]> m) m l !! c) ↔ is_Some (m !! c) ∨ c ∈ l.*1.
Proof.
  induction l as [|p l IH]; intros m c; simpl.
  - split; [by left|]. intros [?|H]; [done|]. by apply elem_of_nil in H.
  - rewrite IH, elem_of_cons, lookup_insert_is_Some. split.
    + intros [[->|[_ ?]]|?]; [right; by left|by left|right; by right].
    + intros [?|[->|?]]; [|left; by left|by right].
      destruct (decide (p.1 = c)); [left; by left|left; by right].
Qed.

Lemma combinations2_distinct {A} (l : list A) s e :
  NoDup l → (s, e) ∈ combinations2 l → s ≠ e.
Proof.
  induction 1 as [|a l Ha Hl IH]; simpl; [by intros ?%elem_of_nil|].
  intros [Hin|Hin]%elem_of_app; [|by apply IH].
  apply list_elem_of_fmap in Hin as (e' & [= -> ->] & He). by intros ->.
Qed.

(** X10.  The constructor fails with ValueError exactly for a negative
    height or width.  Otherwise it builds a solver with an entirely empty
    grid of that height and width, nothing recorded, and the inventory it was
    given; the golden points are those of the list without repetition, so the
    two members of a pair that [calculate_score] draws from them are always
    different cells; a pair is a silver point when some triple of the list
    names it, and its bonus is that of the last such triple. *)
Theorem constructor_builds_the_instance (clk : nat → Q) (w h : Z)
    (golden : list (Z * Z)) (silver : list (Z * Z * Z)) (tls : list (string * (Z * Z))) :
  (init clk w h golden silver tls = Err ValueError ↔ h < 0 ∨ w < 0) ∧
  (0 ≤ h → 0 ≤ w →
   ∃ st, init clk w h golden silver tls = Ok st ∧
     (width st, height st, tiles st) = (w, h, tls) ∧
     (best_solution st, best_score st) = (None, NegInf) ∧
     the_grid st = zeros (Z.to_nat h) (Z.to_nat w) ∧
     (∀ x y, is_valid st x y = true → vacant st x y) ∧
     NoDup (golden_points st) ∧
     (∀ p, p ∈ golden_points st ↔ p ∈ golden) ∧
     (∀ s e, (s, e) ∈ combinations2 (golden_points st) → s ≠ e) ∧
     (∀ c, is_Some (silver_points st !! c) ↔ c ∈ silver.*1) ∧
     (∀ l1 c v l2, silver = l1 ++ (c, v) :: l2 → c ∉ l2.*1 →
                   silver_points st !! c = Some v)).
Proof.
  unfold init. split.
  { case_bool_decide; [by split|]. split; [done|]. by intros. }
  intros Hh Hw. rewrite bool_decide_eq_false_2 by lia. eexists. split; [done|].
  simpl. do 3 (split; [done|]).
  split.
  { intros x y Hv. apply bool_decide_eq_true in Hv. simpl in Hv.
    unfold vacant, the_grid. simpl. apply getitem_zeros_valid; lia. }
  split; [apply NoDup_remove_dups|]. split; [intros p; apply elem_of_remove_dups|].
  split.
  { intros s e. apply combinations2_distinct, NoDup_remove_dups. }
  split.
  { intros c. unfold silver_dict. rewrite silver_fold_is_Some, lookup_empty.
    split; [intros [[? [=]]|?]; done|by right]. }
  intros l1 c v l2 -> Hc. unfold silver_dict. rewrite foldl_app. simpl.
  rewrite silver_fold_other by done. by rewrite lookup_insert_eq.
Qed.

Lemma constructor_builds_the_instance_witness :
  ∃ st,
    init still_clock 3 1 [(0, 0); (0, 0)] [(0, 1, 5); (0, 1, 7)] [("C"%string, (1, 5))]
    = Ok st ∧
    golden_points st = [(0, 0)] ∧ silver_points st !! (0, 1) = Some 7.
Proof.
  destruct (proj2 (constructor_builds_the_instance still_clock 3 1 [(0, 0); (0, 0)]
                     [(0, 1, 5); (0, 1, 7)] [("C"%string, (1, 5))]))
    as (st & Hi & _ & _ & _ & _ & _ & _ & _ & _ & Hs); [lia|lia|].
  exists st. split; [exact Hi|]. split.
  - vm_compute in Hi. injection Hi as <-. reflexivity.
  - apply (Hs [(0, 1, 5)] (0, 1) 7 []); [reflexivity|apply not_elem_of_nil].
Defined.
